(** * Hashy: policy layer over bcrypt (index.js)

    A shallow embedding of index.js and the properties of its hashing,
    decoding, staleness and async-wrapping logic.

    Conventions of the embedding.
    - JavaScript strings are [string]; the only characters index.js
      inspects are the dollar sign and the decimal digits, all ASCII.
    - JavaScript numbers are the integers [Z] (doubles are exact on them
      up to 2^53); NaN appears only as the result of [ToNumber].
    - An object is the finite map of its own enumerable data properties
      (the prototype setter behind the key __proto__ is not modelled).
      An option object holds primitive values: [undefined], [null],
      booleans and numbers. The store maps references to option
      objects, and [globalOptions] maps an algorithm name to the
      reference of its default option object, so that aliasing and
      in-place updates are visible.
    - The arguments of the engines are typed: a password and a hash are
      strings, [algo] is a string or omitted, [options] is a reference
      or omitted.
    - A [throw] is the [Throw] completion; a promise is its state.
    - The bcrypt binding ([compare], [getRounds], [hash]) is a record;
      the [getRounds] of the fallback branch is the one index.js
      defines. [asCallback] of promise-toolbox is a parameter of the
      wrapper; [asCallback_toolbox] is what that library does. *)

From stdpp Require Import base option gmap strings list fin_maps.
From Stdlib Require Import ZArith Ascii String Lia.

Open Scope string_scope.
Open Scope Z_scope.

(* ================================================================= *)
(** ** Values, exceptions, completions and promises *)

Inductive val :=
  | VUndefined
  | VNull
  | VBool (b : bool)
  | VNum (n : Z).

Global Instance val_eq_dec : EqDecision val.
Proof. solve_decision. Defined.

(** [new Error(message)] and the [TypeError] of a property read on
    [undefined]. *)
Inductive exn :=
  | Error (message : string)
  | TypeError (message : string).

Global Instance exn_eq_dec : EqDecision exn.
Proof. solve_decision. Defined.

Inductive completion (A : Type) :=
  | Normal (a : A)
  | Throw (e : exn).
Arguments Normal {A} a.
Arguments Throw {A} e.

Inductive promise (A : Type) :=
  | Pending
  | Fulfilled (a : A)
  | Rejected (e : exn).
Arguments Pending {A}.
Arguments Fulfilled {A} a.
Arguments Rejected {A} e.

(** What a function hands to [resolve]: a plain value or a promise. *)
Inductive resolution (A : Type) :=
  | Plain (a : A)
  | Thenable (p : promise A).
Arguments Plain {A} a.
Arguments Thenable {A} p.

Definition is_throw {A} (c : completion A) : bool :=
  match c with Throw _ => true | Normal _ => false end.

(** ToBoolean *)
Definition truthy (v : val) : bool :=
  match v with
  | VUndefined | VNull => false
  | VBool b => b
  | VNum n => negb (n =? 0)
  end.

(** ToNumber; [None] is NaN. *)
Definition ToNumber (v : val) : option Z :=
  match v with
  | VUndefined => None
  | VNull => Some 0
  | VBool b => Some (if b then 1 else 0)
  | VNum n => Some n
  end.

(** [a < b] on primitive non-string operands: numeric, false on NaN. *)
Definition js_lt (a b : val) : bool :=
  match ToNumber a, ToNumber b with
  | Some x, Some y => x <? y
  | _, _ => false
  end.

(* ================================================================= *)
(** ** The two regular expressions *)

Definition is_dollar (c : ascii) : bool := Ascii.eqb c "$"%char.

Definition is_digit (c : ascii) : bool :=
  let n := nat_of_ascii c in ((48 <=? n) && (n <=? 57))%nat.

(** [[^$]*] then a dollar sign: the run and what follows the dollar. *)
Fixpoint scan_token (s : string) : option (string * string) :=
  match s with
  | EmptyString => None
  | String c s' =>
      if is_dollar c then Some (EmptyString, s')
      else match scan_token s' with
           | Some (t, r) => Some (String c t, r)
           | None => None
           end
  end.

(** [\d*]: the longest run of digits and the rest. *)
Fixpoint scan_digits (s : string) : string * string :=
  match s with
  | EmptyString => (EmptyString, EmptyString)
  | String c s' =>
      if is_digit c then let '(d, r) := scan_digits s' in (String c d, r)
      else (EmptyString, s)
  end.

(** [/^\$([^$]+)\$/.exec(hash)]: capture 1, and the text after the
    match, which the second expression goes on from (both start with
    the same dollar, token, dollar, matched in one way only). *)
Definition HASH_RE_algo (hash : string) : option (string * string) :=
  match hash with
  | String c s =>
      if is_dollar c then
        match scan_token s with
        | Some (EmptyString, _) => None
        | Some (t, r) => Some (t, r)
        | None => None
        end
      else None
  | EmptyString => None
  end.

(** [/^\$[^$]+\$(\d+)\$/.exec(hash)]: capture 1. *)
Definition HASH_RE_rounds (hash : string) : option string :=
  match HASH_RE_algo hash with
  | Some (_, r) =>
      match scan_digits r with
      | (EmptyString, _) => None
      | (d, String c _) => if is_dollar c then Some d else None
      | (_, EmptyString) => None
      end
  | None => None
  end.

(** Unary plus on a string of decimal digits, as the integer the digits
    spell. index.js gets a double: the two agree as long as the integer
    is at most 2^53, which covers the cost field of a bcrypt hash; the
    statements that name the value keep to that range. *)
Definition digit_value (c : ascii) : Z := Z.of_nat (nat_of_ascii c) - 48.

Fixpoint decimal_acc (acc : Z) (s : string) : Z :=
  match s with
  | EmptyString => acc
  | String c s' => decimal_acc (10 * acc + digit_value c) s'
  end.

Definition to_number_digits (s : string) : Z := decimal_acc 0 s.

Definition invalid_hash (hash : string) : exn :=
  Error ("invalid hash: " +:+ hash).

Definition unsupported_algorithm : exn := Error "unsupported algorithm".

(* ================================================================= *)
(** ** The bcrypt binding *)

(** The object [bcrypt] of index.js: [{compare, getRounds, hash}].
    [compare] and [hash] return promises. *)
Record Bcrypt := {
  compare : string -> string -> promise bool;
  getRounds : string -> completion Z;
  hash_password : string -> val -> promise string
}.

(** [getRounds] of the twin-bcrypt fallback. *)
Definition twin_getRounds (hash : string) : completion Z :=
  match HASH_RE_rounds hash with
  | None => Throw (invalid_hash hash)
  | Some d => Normal (to_number_digits d)
  end.

(** The fallback binding over the callback-style library: its
    [promisify] resolves with what the library calls back. *)
Definition twin_bcrypt
    (bcryptjs_compare : string -> string -> promise bool)
    (bcryptjs_hash : string -> val -> promise string) : Bcrypt :=
  {| compare := bcryptjs_compare;
     getRounds := twin_getRounds;
     hash_password := bcryptjs_hash |}.

(* ================================================================= *)
(** ** Identifier table and [getAlgoId] *)

Definition idsByAlgo : list (string * list string) :=
  [("bcrypt", ["2"; "2a"; "2x"; "2y"])].

Definition IDENTS_TO_ALGOS : gmap string string :=
  foldl (fun algosById '(algo, ids) =>
           foldl (fun m i => <[i := algo]> m) algosById ids)
        ∅ idsByAlgo.

Definition getAlgoId (hash : string) : completion string :=
  match HASH_RE_algo hash with
  | None => Throw (invalid_hash hash)
  | Some (t, _) => Normal t
  end.


(* ================================================================= *)
(** ** The store and its monad *)

Definition loc := positive.

(** [globalOptions] (exported as [options]) and the option objects. *)
Record store := Store {
  globalOptions : gmap string loc;
  objects : gmap loc (gmap string val)
}.

(** State passing with exceptions; the store at a throw is kept. *)
Definition M (A : Type) : Type := store -> completion A * store.

Definition ret {A} (a : A) : M A := fun σ => (Normal a, σ).
Definition throw {A} (e : exn) : M A := fun σ => (Throw e, σ).
Definition bind {A B} (m : M A) (k : A -> M B) : M B :=
  fun σ => match m σ with
           | (Normal a, σ') => k a σ'
           | (Throw e, σ') => (Throw e, σ')
           end.
Definition lift {A} (c : completion A) : M A := fun σ => (c, σ).

Notation "'do' x <- m ; k" := (bind m (fun x => k))
  (at level 10, x name, m at level 100, k at level 200).
Notation "m ;; k" := (bind m (fun _ => k))
  (at level 100, k at level 200, right associativity).

(** The object literal [{}]: a reference no object has yet. *)
Definition new_object : M loc := fun σ =>
  let l := fresh (dom (objects σ)) in
  (Normal l, Store (globalOptions σ) (<[l := ∅]> (objects σ))).

Definition object_at (σ : store) (l : loc) : gmap string val :=
  default ∅ (objects σ !! l).

Definition undefined_read (key : string) : exn :=
  TypeError ("Cannot read properties of undefined (reading '"
               +:+ key +:+ "')").

(** [o.key] where [o] is [undefined] or a reference. *)
Definition get_property (o : option loc) (key : string) : M val := fun σ =>
  match o with
  | None => (Throw (undefined_read key), σ)
  | Some l => (Normal (default VUndefined (object_at σ l !! key)), σ)
  end.

(** [target[key] = v] *)
Definition set_property (target : loc) (key : string) (v : val) : M () :=
  fun σ =>
    (Normal (),
     Store (globalOptions σ)
           (<[target := <[key := v]> (object_at σ target)]> (objects σ))).

(** [globalOptions.bcrypt] *)
Definition get_global (algo : string) : M (option loc) := fun σ =>
  (Normal (globalOptions σ !! algo), σ).

(** The keys a [for (key in source)] filtered by [has.call(source, key)]
    visits: none for [undefined], the own keys of an object (the order
    is immaterial to what index.js does with them). *)
Definition own_keys (source : option loc) : M (list string) := fun σ =>
  (Normal (match source with
           | None => []
           | Some l => (map_to_list (object_at σ l)).*1
           end), σ).

Fixpoint for_each {A} (l : list A) (body : A -> M ()) : M () :=
  match l with
  | [] => ret ()
  | x :: l' => body x ;; for_each l' body
  end.

(* ================================================================= *)
(** ** [assign] *)

(** [target[key] = source[key]] *)
Definition copy_property (target : loc) (source : option loc) (key : string)
  : M () :=
  do v <- get_property source key;
  set_property target key v.

(** [assign(target, source...)]; [sources] are [arguments[1..]]. *)
Definition assign (target : loc) (sources : list (option loc)) : M loc :=
  for_each sources (fun source =>
    do keys <- own_keys source;
    for_each keys (copy_property target source)) ;;
  ret target.

(* ================================================================= *)
(** ** [makeAsyncWrapper] *)

(** [new Promise(executor)]: the executor runs at once; what it passes to
    [resolve] settles the promise, and an exception it throws before
    that rejects the promise. The argument is the executor's outcome:
    the value passed to [resolve], if any, or the exception. *)
Definition Promise_new {A} (executor : completion (option (resolution A)))
  : promise A :=
  match executor with
  | Throw e => Rejected e
  | Normal None => Pending
  | Normal (Some (Plain a)) => Fulfilled a
  | Normal (Some (Thenable p)) => p
  end.

Section AsyncWrapper.
Context {Arg A R St : Type}.
(** [isFunction] is the test [toString.call(value) === tag] on argument
    values; [asCallback] of promise-toolbox is called on the promise
    with the callback ([None] is [undefined]), and what it returns is
    what the wrapper returns. *)
Variable isFunction : Arg -> bool.
Variable asCallback : promise A -> option Arg -> R.

(** [if (n && isFunction(args[n - 1])) callback = args.pop()] *)
Definition pop_callback (args : list Arg) : list Arg * option Arg :=
  match last args with
  | Some f => if isFunction f then (removelast args, Some f)
              else (args, None)
  | None => (args, None)
  end.

Definition makeAsyncWrapper
    (fn : list Arg -> St -> completion (resolution A) * St)
    (arguments : list Arg) (s : St) : completion R * St :=
  let '(args, callback) := pop_callback arguments in
  let '(r, s') := fn args s in
  let executor := match r with
                  | Normal x => Normal (Some x)   (* resolve(x) *)
                  | Throw e => Throw e
                  end in
  (Normal (asCallback (Promise_new executor) callback), s').
End AsyncWrapper.

(* ================================================================= *)
(** ** The engines *)

Definition DEFAULT_ALGO : string := "bcrypt".

(** [algo || (algo = DEFAULT_ALGO)]; [None] is an omitted argument. *)
Definition or_default (algo : option string) : string :=
  match algo with
  | None => DEFAULT_ALGO
  | Some s => if String.eqb s "" then DEFAULT_ALGO else s
  end.

Record info := Info {
  info_algo : string;
  info_id : string;
  info_options : gmap string val
}.

Section Engines.
Variable bcrypt : Bcrypt.

Definition hash (password : string) (algo : option string)
    (options : option loc) : M (promise string) :=
  let algo := or_default algo in
  if String.eqb algo "bcrypt" then
    do target <- new_object;
    do defaults <- get_global "bcrypt";
    do options <- assign target [options; defaults];
    do cost <- get_property (Some options) "cost";
    ret (hash_password bcrypt password cost)
  else throw unsupported_algorithm.

Definition getInfo (hash : string) : completion info :=
  match getAlgoId hash with
  | Throw e => Throw e
  | Normal algoId =>
      let algo := IDENTS_TO_ALGOS !! algoId in
      if decide (algo = Some "bcrypt") then
        match getRounds bcrypt hash with
        | Throw e => Throw e
        | Normal rounds =>
            Normal (Info "bcrypt" algoId {[ "cost" := VNum rounds ]})
        end
      else Normal (Info "unknown" "unknown" ∅)
  end.

Definition needsRehash (hash : string) (algo : option string)
    (options : option loc) : M bool :=
  do info <- lift (getInfo hash);
  let algo := or_default algo in
  if negb (String.eqb (info_algo info) algo) then ret true
  else if String.eqb algo "bcrypt" then
    if negb (String.eqb (info_id info) "2y") then ret true
    else
      (* options && options.cost || globalOptions.bcrypt.cost *)
      do a <- match options with
              | None => ret VUndefined
              | Some _ => get_property options "cost"
              end;
      do required <- (if truthy a then ret a
                      else do defaults <- get_global "bcrypt";
                           get_property defaults "cost");
      ret (js_lt (default VUndefined (info_options info !! "cost"))
                 required)
  else ret false.

Definition verify (password hash : string) : completion (promise bool) :=
  match getInfo hash with
  | Throw e => Throw e
  | Normal info =>
      if String.eqb (info_algo info) "bcrypt"
      then Normal (compare bcrypt password hash)
      else Throw unsupported_algorithm
  end.
End Engines.

(** The store when the module is loaded:
    [globalOptions.bcrypt = {cost: 10}]. *)
Definition initial_store : store :=
  Store {[ "bcrypt" := 1%positive ]}
        {[ 1%positive := {[ "cost" := VNum 10 ]} ]}.

(* ================================================================= *)
(** ** Vocabulary of the statements *)

Fixpoint has_dollar (s : string) : bool :=
  match s with
  | EmptyString => false
  | String c s' => is_dollar c || has_dollar s'
  end.

(** [hash] is a dollar sign, the non-empty dollar-free token [t], a
    dollar sign, and anything. *)
Definition tag_of (hash t : string) : Prop :=
  ∃ r, hash = String "$" (t +:+ String "$" r)
       ∧ t ≠ EmptyString ∧ has_dollar t = false.

Definition matches_grammar (hash : string) : Prop := ∃ t, tag_of hash t.

Fixpoint all_digits (s : string) : bool :=
  match s with
  | EmptyString => true
  | String c s' => is_digit c && all_digits s'
  end.

(** After the token and its closing dollar sign, [hash] goes on with
    the non-empty run of digits [d] and a dollar sign. *)
Definition cost_field_of (hash d : string) : Prop :=
  ∃ t r, hash = String "$" (t +:+ String "$" (d +:+ String "$" r))
         ∧ t ≠ EmptyString ∧ has_dollar t = false
         ∧ d ≠ EmptyString ∧ all_digits d = true.

(** The identifier [t] is one of those registered for bcrypt. *)
Definition registered (t : string) : Prop :=
  IDENTS_TO_ALGOS !! t = Some "bcrypt".

(** The value of [options && options.cost]. *)
Definition option_cost (σ : store) (options : option loc) : val :=
  match options with
  | None => VUndefined
  | Some l => default VUndefined (object_at σ l !! "cost")
  end.

(** The object a source argument of [assign] denotes; nothing for
    [undefined]. *)
Definition source_object (σ : store) (source : option loc)
  : gmap string val :=
  match source with
  | None => ∅
  | Some l => object_at σ l
  end.

(** A small universe of argument values for [makeAsyncWrapper], with
    its function test, for concrete instances. *)
Inductive arg :=
  | AStr (s : string)
  | AUndefined
  | ARef (l : loc)
  | AFun (name : string).

Definition arg_isFunction (a : arg) : bool :=
  match a with AFun _ => true | _ => false end.

(** A function to wrap, for concrete instances: [hash] on a password
    and an algorithm name. *)
Definition apply_hash (bcrypt : Bcrypt) (args : list arg)
  : M (resolution string) :=
  match args with
  | AStr password :: AStr algo :: _ =>
      do p <- hash bcrypt password (Some algo) None;
      ret (Thenable p)
  | AStr password :: _ =>
      do p <- hash bcrypt password None None;
      ret (Thenable p)
  | _ => throw (TypeError "password must be a string")
  end.

(* ================================================================= *)
(** ** The format of the primitive, and a sample binding *)

Definition digit_char (d : Z) : ascii := ascii_of_nat (48 + Z.to_nat d).

Definition two_digits (c : Z) : string :=
  String (digit_char (c / 10)) (String (digit_char (c mod 10)) EmptyString).

(** Modelled from the spec: the hash string a bcrypt primitive, which is
    outside index.js, produces:
    [$<tag>$<cost, two-digit>$<22-char salt><31-char digest>]. *)
Definition bcrypt_hash_string (tag : string) (cost : Z) (payload : string)
  : string :=
  String "$" (tag +:+ String "$" (two_digits cost +:+ String "$" payload)).

(** Modelled from the spec: a primitive hashes with the cost it is
    given, in the format above, with a tag among 2, 2a, 2x and 2y. *)
Definition bcrypt_format (hash_fn : string -> val -> promise string) : Prop :=
  ∀ password c, 4 ≤ c ≤ 31 →
    ∃ tag payload,
      registered tag ∧ String.length payload = 53%nat
      ∧ hash_fn password (VNum c) = Fulfilled (bcrypt_hash_string tag c payload).

(** One primitive of that format, to instantiate statements on
    concrete inputs. *)
Definition sample_payload : string :=
  "abcdefghijklmnopqrstuv0123456789ABCDEFGHIJKLMNOPQRSTU".

Definition sample_bcryptjs_hash (password : string) (cost : val)
  : promise string :=
  match cost with
  | VNum c =>
      if (4 <=? c) && (c <=? 31)
      then Fulfilled (bcrypt_hash_string "2y" c sample_payload)
      else Rejected (Error "Illegal number of rounds")
  | _ => Rejected (Error "Illegal arguments")
  end.

Definition sample_bcryptjs_compare (password hash : string) : promise bool :=
  Fulfilled (String.eqb hash
               (bcrypt_hash_string "2y" 10 sample_payload)).

Definition sample_bcrypt : Bcrypt :=
  twin_bcrypt sample_bcryptjs_compare sample_bcryptjs_hash.

(** A store where the caller holds [{cost: oc}] at reference 2 and the
    default is [{cost: gc}]. *)
Definition store_with (gc oc : val) : store :=
  Store {[ "bcrypt" := 1%positive ]}
        (<[ 2%positive := {[ "cost" := oc ]} ]>
           {[ 1%positive := {[ "cost" := gc ]} ]}).

(* ================================================================= *)
(** ** The builder of the identifier table, and the result of [assign] *)

(** The function index.js applies to [{bcrypt: [...]}] to build
    [IDENTS_TO_ALGOS], on any table of identifiers by algorithm (the
    entries in the order [for (algo in idsByAlgo)] visits them). *)
Definition algosById_of (idsByAlgo : list (string * list string))
  : gmap string string :=
  foldl (fun algosById '(algo, ids) =>
           foldl (fun m i => <[i := algo]> m) algosById ids)
        ∅ idsByAlgo.

(** What the target of [assign] holds in the end: each source in turn is
    laid over it, a source that is the target itself changing nothing. *)
Definition assigned (σ : store) (target : loc) (sources : list (option loc))
    (init : gmap string val) : gmap string val :=
  foldl (fun acc source =>
           if decide (source = Some target) then acc
           else source_object σ source ∪ acc)
        init sources.

(* ================================================================= *)
(** ** The required cost, and [asCallback] as promise-toolbox has it *)

(** The cost [needsRehash] compares a bcrypt hash with, the value of
    [options && options.cost || globalOptions.bcrypt.cost] when the
    defaults are the object at [lg]: the per-call cost when it is
    truthy, the cost of the defaults otherwise. *)
Definition required_cost (σ : store) (options : option loc) (lg : loc)
  : val :=
  if truthy (option_cost σ options) then option_cost σ options
  else default VUndefined (object_at σ lg !! "cost").

(** A call of a Node callback: [cb(error)], or [cb(null, value)]. *)
Inductive callback_call (A : Type) :=
  | CallError (e : exn)
  | CallValue (a : A).
Arguments CallError {A} e.
Arguments CallValue {A} a.

(** What a call of a wrapped function shows: the value it returns
    ([None] is [undefined]) and the calls its callback receives once
    the promise is settled. *)
Record observation (Arg A : Type) := Observation {
  returned : option (promise A);
  callback_calls : list (Arg * callback_call A)
}.
Arguments Observation {Arg A} returned callback_calls.
Arguments returned {Arg A} o.
Arguments callback_calls {Arg A} o.

(** [asCallback] of promise-toolbox, which index.js imports and does
    not define: called on a promise with a callback, it has the
    callback called with the error when the promise is rejected, and
    with no error and the value when it is fulfilled; with or without
    a callback it returns the promise it was called on. *)
Definition asCallback_toolbox {Arg A : Type} (p : promise A)
    (cb : option Arg) : observation Arg A :=
  {| returned := Some p;
     callback_calls :=
       match cb, p with
       | Some f, Rejected e => [(f, CallError e)]
       | Some f, Fulfilled a => [(f, CallValue a)]
       | _, _ => []
       end |}.

(* ================================================================= *)
(** * Properties *)

(** ** Some evaluations *)

Example getAlgoId_2y : getAlgoId "$2y$10$abc" = Normal "2y".
Proof. reflexivity. Qed.

Example getAlgoId_empty_token :
  getAlgoId "$$10$abc" = Throw (invalid_hash "$$10$abc").
Proof. reflexivity. Qed.

Example IDENTS_TO_ALGOS_2a : IDENTS_TO_ALGOS !! "2a" = Some "bcrypt".
Proof. reflexivity. Qed.

Example IDENTS_TO_ALGOS_2b : IDENTS_TO_ALGOS !! "2b" = None.
Proof. reflexivity. Qed.

Example twin_getRounds_07 : twin_getRounds "$2y$07$abc" = Normal 7.
Proof. reflexivity. Qed.

Example twin_getRounds_no_digits :
  twin_getRounds "$2y$x7$abc" = Throw (invalid_hash "$2y$x7$abc").
Proof. reflexivity. Qed.

Example getInfo_unknown_tag :
  getInfo sample_bcrypt "$unknown$abc" = Normal (Info "unknown" "unknown" ∅).
Proof. reflexivity. Qed.

Example hash_at_load :
  (hash sample_bcrypt "secret" None None initial_store).1
  = Normal (Fulfilled (bcrypt_hash_string "2y" 10 sample_payload)).
Proof. vm_compute. reflexivity. Qed.

(** A hash produced with the per-call cost 12 under the default 10 is
    at once reported stale when checked with the same options. *)
Example hash_then_needsRehash :
  (hash sample_bcrypt "secret" (Some "bcrypt") (Some 2%positive)
     (store_with (VNum 10) (VNum 12))).1
  = Normal (Fulfilled (bcrypt_hash_string "2y" 10 sample_payload))
  ∧ (needsRehash sample_bcrypt (bcrypt_hash_string "2y" 10 sample_payload)
       (Some "bcrypt") (Some 2%positive)
       (store_with (VNum 10) (VNum 12))).1
    = Normal true.
Proof. split; vm_compute; reflexivity. Qed.

(** ** The store monad *)

Lemma bind_Normal {A B} (m : M A) (k : A -> M B) σ a σ' :
  m σ = (Normal a, σ') → bind m k σ = k a σ'.
Proof. intros H. unfold bind. by rewrite H. Qed.

Lemma bind_Throw {A B} (m : M A) (k : A -> M B) σ e σ' :
  m σ = (Throw e, σ') → bind m k σ = (Throw e, σ').
Proof. intros H. unfold bind. by rewrite H. Qed.

(** ** The grammar of a self-describing hash *)

Lemma is_dollar_true c : is_dollar c = true ↔ c = "$"%char.
Proof. unfold is_dollar. apply Ascii.eqb_eq. Qed.

Lemma scan_token_sound s t r :
  scan_token s = Some (t, r) →
  s = t +:+ String "$" r ∧ has_dollar t = false.
Proof.
  revert t r. induction s as [|c s IH]; intros t r; simpl; [discriminate|].
  destruct (is_dollar c) eqn:Hc.
  - intros [= <- <-]. apply is_dollar_true in Hc. subst c. by split.
  - destruct (scan_token s) as [[t' r']|] eqn:Hs; [|discriminate].
    intros [= <- <-]. destruct (IH _ _ eq_refl) as [-> Ht].
    split; [done|]. simpl. by rewrite Hc.
Qed.

Lemma scan_token_complete t r :
  has_dollar t = false → scan_token (t +:+ String "$" r) = Some (t, r).
Proof.
  induction t as [|c t IH]; simpl; [done|].
  intros [Hc Ht]%orb_false_iff. by rewrite Hc, IH.
Qed.

Lemma HASH_RE_algo_spec hash t r :
  HASH_RE_algo hash = Some (t, r) ↔
  hash = String "$" (t +:+ String "$" r)
  ∧ t ≠ EmptyString ∧ has_dollar t = false.
Proof.
  split.
  - destruct hash as [|c s]; simpl; [discriminate|].
    destruct (is_dollar c) eqn:Hc; [|discriminate].
    apply is_dollar_true in Hc. subst c.
    destruct (scan_token s) as [[t' r']|] eqn:Hs; [|discriminate].
    apply scan_token_sound in Hs as [-> Ht'].
    destruct t' as [|c' t']; [discriminate|].
    by intros [= <- <-].
  - intros (-> & Hne & Ht). simpl.
    rewrite (scan_token_complete _ _ Ht).
    by destruct t.
Qed.

Lemma scan_digits_sound s d r :
  scan_digits s = (d, r) → s = d +:+ r ∧ all_digits d = true.
Proof.
  revert d r. induction s as [|c s IH]; intros d r; simpl.
  - by intros [= <- <-].
  - destruct (is_digit c) eqn:Hc.
    + destruct (scan_digits s) as [d' r'] eqn:Hs. intros [= <- <-].
      destruct (IH _ _ eq_refl) as [-> Hd]. simpl. by rewrite Hc.
    + by intros [= <- <-].
Qed.

Lemma scan_digits_complete d r :
  all_digits d = true →
  scan_digits (d +:+ String "$" r) = (d, String "$" r).
Proof.
  induction d as [|c d IH]; simpl; [done|].
  intros [Hc Hd]%andb_true_iff. by rewrite Hc, IH.
Qed.

Lemma HASH_RE_rounds_spec hash d :
  HASH_RE_rounds hash = Some d ↔ cost_field_of hash d.
Proof.
  unfold HASH_RE_rounds, cost_field_of. split.
  - destruct (HASH_RE_algo hash) as [[t r]|] eqn:Ha; [|done].
    apply HASH_RE_algo_spec in Ha as (-> & Hne & Ht).
    destruct (scan_digits r) as [d' r'] eqn:Hs.
    apply scan_digits_sound in Hs as [-> Hd].
    destruct d' as [|c' d']; [done|].
    destruct r' as [|c r']; [done|].
    destruct (is_dollar c) eqn:Hc; [|done].
    apply is_dollar_true in Hc as ->. intros [= <-].
    by exists t, r'.
  - intros (t & r & -> & Hne & Ht & Hd & Hdig).
    assert (Ha : HASH_RE_algo
                   (String "$" (t +:+ String "$" (d +:+ String "$" r)))
                 = Some (t, d +:+ String "$" r))
      by by apply HASH_RE_algo_spec.
    rewrite Ha, (scan_digits_complete _ _ Hdig). by destruct d.
Qed.

Lemma twin_getRounds_fails hash :
  is_throw (twin_getRounds hash) = true ↔ ¬ ∃ d, cost_field_of hash d.
Proof.
  unfold twin_getRounds. split.
  - destruct (HASH_RE_rounds hash) as [d|] eqn:H; [done|].
    intros _ [d Hd]. apply HASH_RE_rounds_spec in Hd. congruence.
  - intros Hn. destruct (HASH_RE_rounds hash) as [d|] eqn:H; [|done].
    destruct Hn. exists d. by apply HASH_RE_rounds_spec.
Qed.

Lemma tag_of_unique hash t1 t2 : tag_of hash t1 → tag_of hash t2 → t1 = t2.
Proof.
  intros [r1 H1] [r2 H2].
  apply HASH_RE_algo_spec in H1, H2. congruence.
Qed.

Lemma getAlgoId_tag hash t : getAlgoId hash = Normal t ↔ tag_of hash t.
Proof.
  unfold getAlgoId, tag_of. split.
  - destruct (HASH_RE_algo hash) as [[t' r]|] eqn:H; [|discriminate].
    intros [= <-]. exists r. by apply HASH_RE_algo_spec.
  - intros [r H]. apply HASH_RE_algo_spec in H. by rewrite H.
Qed.

Lemma getAlgoId_invalid hash :
  ¬ matches_grammar hash ↔ getAlgoId hash = Throw (invalid_hash hash).
Proof.
  unfold getAlgoId. split.
  - intros Hn. destruct (HASH_RE_algo hash) as [[t r]|] eqn:H; [|done].
    destruct Hn. exists t, r. by apply HASH_RE_algo_spec.
  - destruct (HASH_RE_algo hash) as [[t r]|] eqn:H; [discriminate|].
    intros _ [t [r Ht]]. apply HASH_RE_algo_spec in Ht. congruence.
Qed.

Lemma getAlgoId_cases hash :
  (∃ t, tag_of hash t ∧ getAlgoId hash = Normal t)
  ∨ (¬ matches_grammar hash ∧ getAlgoId hash = Throw (invalid_hash hash)).
Proof.
  destruct (getAlgoId hash) as [t|e] eqn:H.
  - left. exists t. split; [by apply getAlgoId_tag|done].
  - right. unfold getAlgoId in H.
    destruct (HASH_RE_algo hash) as [[t r]|] eqn:H'; [discriminate|].
    injection H as <-. split; [|done].
    apply getAlgoId_invalid. unfold getAlgoId. by rewrite H'.
Qed.

Lemma registered_ids t :
  registered t ↔ t = "2" ∨ t = "2a" ∨ t = "2x" ∨ t = "2y".
Proof.
  unfold registered, IDENTS_TO_ALGOS, idsByAlgo. simpl.
  rewrite !lookup_insert_Some, lookup_empty.
  split.
  - intuition (subst; auto; discriminate).
  - destruct (decide ("2y" = t)); [tauto|].
    destruct (decide ("2x" = t)); [tauto|].
    destruct (decide ("2a" = t)); [tauto|].
    intuition congruence.
Qed.

Lemma IDENTS_TO_ALGOS_only_bcrypt t a :
  IDENTS_TO_ALGOS !! t = Some a → a = "bcrypt".
Proof.
  unfold IDENTS_TO_ALGOS, idsByAlgo. simpl.
  rewrite !lookup_insert_Some, lookup_empty. intuition congruence.
Qed.

(* ================================================================= *)
(** ** [getInfo] *)

Section GetInfo.
Variable bcrypt : Bcrypt.

Lemma getInfo_invalid hash :
  ¬ matches_grammar hash → getInfo bcrypt hash = Throw (invalid_hash hash).
Proof.
  intros H. apply getAlgoId_invalid in H. unfold getInfo. by rewrite H.
Qed.

Lemma getInfo_unknown hash t :
  tag_of hash t → ¬ registered t →
  getInfo bcrypt hash = Normal (Info "unknown" "unknown" ∅).
Proof.
  intros Ht Hr. apply getAlgoId_tag in Ht. unfold getInfo. rewrite Ht.
  by destruct (decide _).
Qed.

Lemma getInfo_registered hash t :
  tag_of hash t → registered t →
  getInfo bcrypt hash =
    match getRounds bcrypt hash with
    | Throw e => Throw e
    | Normal rounds => Normal (Info "bcrypt" t {[ "cost" := VNum rounds ]})
    end.
Proof.
  intros Ht Hr. apply getAlgoId_tag in Ht. unfold getInfo. rewrite Ht.
  by destruct (decide _).
Qed.

(** What a successful decode looks like. *)
Lemma getInfo_Normal hash i :
  getInfo bcrypt hash = Normal i →
  (∃ t c, tag_of hash t ∧ registered t ∧ getRounds bcrypt hash = Normal c
          ∧ i = Info "bcrypt" t {[ "cost" := VNum c ]})
  ∨ (∃ t, tag_of hash t ∧ ¬ registered t ∧ i = Info "unknown" "unknown" ∅).
Proof.
  destruct (getAlgoId_cases hash) as [(t & Ht & _)|[Hn _]].
  - destruct (decide (registered t)) as [Hr|Hr].
    + rewrite (getInfo_registered _ _ Ht Hr).
      destruct (getRounds bcrypt hash) as [c|e] eqn:Hc; [|discriminate].
      intros [= <-]. left. by exists t, c.
    + rewrite (getInfo_unknown _ _ Ht Hr). intros [= <-]. right. by exists t.
  - by rewrite (getInfo_invalid _ Hn).
Qed.
End GetInfo.

(* ================================================================= *)
(** ** [needsRehash] and [verify] once the hash is decoded *)

Section Decoded.
Variable bcrypt : Bcrypt.

Lemma needsRehash_Throw hash algo options σ e :
  getInfo bcrypt hash = Throw e →
  needsRehash bcrypt hash algo options σ = (Throw e, σ).
Proof. intros H. unfold needsRehash, bind, lift. by rewrite H. Qed.

Lemma needsRehash_mismatch hash algo options σ i :
  getInfo bcrypt hash = Normal i →
  info_algo i ≠ or_default algo →
  needsRehash bcrypt hash algo options σ = (Normal true, σ).
Proof.
  intros H Hne. unfold needsRehash, bind, lift. rewrite H.
  apply String.eqb_neq in Hne. by rewrite Hne.
Qed.

(** The bcrypt branch, statement by statement. *)
Lemma needsRehash_bcrypt hash algo options σ t c :
  getInfo bcrypt hash = Normal (Info "bcrypt" t {[ "cost" := VNum c ]}) →
  or_default algo = "bcrypt" →
  needsRehash bcrypt hash algo options σ =
    if negb (String.eqb t "2y") then (Normal true, σ)
    else if truthy (option_cost σ options)
    then (Normal (js_lt (VNum c) (option_cost σ options)), σ)
    else match globalOptions σ !! "bcrypt" with
         | None => (Throw (undefined_read "cost"), σ)
         | Some lg =>
             (Normal (js_lt (VNum c)
                        (default VUndefined (object_at σ lg !! "cost"))), σ)
         end.
Proof.
  intros H Ha. unfold needsRehash, bind, lift. rewrite H, Ha. simpl.
  destruct (negb (String.eqb t "2y")); [done|].
  rewrite lookup_singleton_eq. simpl.
  destruct options as [lo|]; simpl.
  - destruct (truthy _); [done|].
    by destruct (globalOptions σ !! "bcrypt").
  - by destruct (globalOptions σ !! "bcrypt").
Qed.

Lemma verify_unknown password hash i :
  getInfo bcrypt hash = Normal i → info_algo i = "unknown" →
  verify bcrypt password hash = Throw unsupported_algorithm.
Proof. intros H Hu. unfold verify. by rewrite H, Hu. Qed.

Lemma hash_unsupported password algo options σ :
  or_default algo ≠ "bcrypt" →
  hash bcrypt password algo options σ = (Throw unsupported_algorithm, σ).
Proof.
  intros H. unfold hash. apply String.eqb_neq in H. by rewrite H.
Qed.
End Decoded.

Lemma or_default_Some s : s ≠ "" → or_default (Some s) = s.
Proof. intros H. simpl. apply String.eqb_neq in H. by rewrite H. Qed.

Lemma sample_format : bcrypt_format sample_bcryptjs_hash.
Proof.
  intros password c Hc. exists "2y", sample_payload.
  split; [apply registered_ids; auto 10|]. split; [reflexivity|].
  unfold sample_bcryptjs_hash.
  destruct (Z.leb_spec 4 c); [|lia]. destruct (Z.leb_spec c 31); [|lia]. done.
Qed.

(* ================================================================= *)
(** ** [assign] copies the sources onto the target, the last one winning *)

Lemma elem_of_own_keys (m : gmap string val) k :
  k ∈ (map_to_list m).*1 ↔ is_Some (m !! k).
Proof.
  rewrite list_elem_of_fmap. split.
  - intros [[k' v] [-> H]]. apply elem_of_map_to_list in H. by exists v.
  - intros [v H]. exists (k, v). split; [done|]. by apply elem_of_map_to_list.
Qed.

Lemma object_at_set_property σ l k v l' :
  object_at (set_property l k v σ).2 l' =
    if decide (l' = l) then <[k := v]> (object_at σ l) else object_at σ l'.
Proof.
  unfold object_at, set_property. simpl. destruct (decide (l' = l)) as [->|Hne].
  - by rewrite lookup_insert_eq.
  - by rewrite lookup_insert_ne.
Qed.

Section Assign.
Variable target : loc.

Lemma copy_keys_spec ls ks : ∀ σ,
  (∀ k, k ∈ ks → is_Some (object_at σ ls !! k)) →
  ∃ σ', for_each ks (copy_property target (Some ls)) σ = (Normal (), σ')
    ∧ globalOptions σ' = globalOptions σ
    ∧ (∀ l, l ≠ target → objects σ' !! l = objects σ !! l)
    ∧ object_at σ' ls = object_at σ ls
    ∧ (∀ k, object_at σ' target !! k =
            if decide (k ∈ ks) then object_at σ ls !! k
            else object_at σ target !! k).
Proof.
  induction ks as [|k0 ks IH]; intros σ Hks.
  - exists σ. by repeat split.
  - destruct (Hks k0) as [v0 Hv0]; [by left|].
    set (σ1 := (set_property target k0 v0 σ).2).
    assert (Hls : object_at σ1 ls = object_at σ ls).
    { unfold σ1. rewrite object_at_set_property.
      destruct (decide (ls = target)) as [->|]; [|done].
      by apply insert_id. }
    assert (Htg : object_at σ1 target = <[k0 := v0]> (object_at σ target)).
    { unfold σ1. rewrite object_at_set_property. by rewrite decide_True. }
    destruct (IH σ1) as (σ' & Hrun & Hg & Hframe & Hls' & Hlook).
    { intros k Hk. rewrite Hls. apply Hks. by right. }
    exists σ'. split; [|split; [|split; [|split]]].
    + simpl. rewrite (bind_Normal _ _ σ () σ1); [exact Hrun|].
      unfold copy_property, bind, get_property. simpl. by rewrite Hv0.
    + by rewrite Hg.
    + intros l Hl. rewrite (Hframe l Hl). unfold σ1. simpl.
      by rewrite lookup_insert_ne.
    + by rewrite Hls'.
    + intros k. rewrite Hlook, Hls, Htg.
      destruct (decide (k ∈ ks)) as [Hin|Hnin].
      * rewrite decide_True; [done|by right].
      * destruct (decide (k = k0)) as [->|Hne].
        -- rewrite decide_True; [|by left]. by rewrite lookup_insert_eq.
        -- rewrite decide_False.
           ++ by rewrite lookup_insert_ne.
           ++ intros [?|?]%elem_of_cons; done.
Qed.

(** One turn of the outer loop of [assign]. *)
Lemma assign_source_spec source σ :
  ∃ σ', (do keys <- own_keys source; for_each keys (copy_property target source)) σ
          = (Normal (), σ')
    ∧ globalOptions σ' = globalOptions σ
    ∧ (∀ l, l ≠ target → objects σ' !! l = objects σ !! l)
    ∧ object_at σ' target = source_object σ source ∪ object_at σ target.
Proof.
  destruct source as [ls|].
  - destruct (copy_keys_spec ls (map_to_list (object_at σ ls)).*1 σ)
      as (σ' & Hrun & Hg & Hframe & _ & Hlook).
    { intros k. by rewrite elem_of_own_keys. }
    exists σ'. repeat split; try done.
    apply map_eq. intros k. rewrite Hlook. simpl.
    destruct (decide _) as [Hin|Hnin].
    + apply elem_of_own_keys in Hin. symmetry. by apply lookup_union_l'.
    + rewrite elem_of_own_keys, <- eq_None_not_Some in Hnin.
      symmetry. by apply lookup_union_r.
  - exists σ. repeat split; try done. simpl.
    by rewrite (left_id_L ∅ (∪)).
Qed.

Lemma assign_two_spec s1 s2 σ :
  ∃ σ1 σ', assign target [s1; s2] σ = (Normal target, σ')
    ∧ globalOptions σ' = globalOptions σ
    ∧ (∀ l, l ≠ target → objects σ' !! l = objects σ !! l)
    ∧ (∀ l, l ≠ target → objects σ1 !! l = objects σ !! l)
    ∧ object_at σ1 target = source_object σ s1 ∪ object_at σ target
    ∧ object_at σ' target = source_object σ1 s2 ∪ object_at σ1 target.
Proof.
  destruct (assign_source_spec s1 σ) as (σ1 & Hrun1 & Hg1 & Hf1 & Ht1).
  destruct (assign_source_spec s2 σ1) as (σ' & Hrun2 & Hg2 & Hf2 & Ht2).
  exists σ1, σ'. split; [|split; [|split; [|split; [|split]]]]; try done.
  - unfold assign. simpl for_each.
    rewrite (bind_Normal _ _ σ () σ'); [done|].
    rewrite (bind_Normal _ _ σ () σ1 Hrun1).
    by rewrite (bind_Normal _ _ σ1 () σ' Hrun2).
  - by rewrite Hg2.
  - intros l Hl. by rewrite Hf2, Hf1.
Qed.
End Assign.

(* ================================================================= *)
(** ** [hash] *)

Lemma object_at_new_object σ l :
  object_at (new_object σ).2 l = object_at σ l.
Proof.
  unfold object_at, new_object. simpl.
  destruct (decide (l = fresh (dom (objects σ)))) as [->|Hne].
  - rewrite lookup_insert_eq. simpl.
    assert (H : objects σ !! fresh (dom (objects σ)) = None)
      by (apply not_elem_of_dom, is_fresh).
    by rewrite H.
  - by rewrite lookup_insert_ne.
Qed.

Lemma source_object_new_object σ s :
  source_object (new_object σ).2 s = source_object σ s.
Proof. destruct s; simpl; [apply object_at_new_object|done]. Qed.

Lemma object_at_frame σ σ' l :
  objects σ' !! l = objects σ !! l → object_at σ' l = object_at σ l.
Proof. unfold object_at. by intros ->. Qed.

(** The bcrypt branch of [hash]: the effective parameters are the
    defaults over the caller's options, held by an object that did not
    exist before; nothing else changes. *)
Lemma hash_spec bcrypt password algo options σ :
  or_default algo = "bcrypt" →
  ∃ σ',
    hash bcrypt password algo options σ =
      (Normal (hash_password bcrypt password
                 (default VUndefined
                    ((source_object σ (globalOptions σ !! "bcrypt")
                        ∪ source_object σ options) !! "cost"))), σ')
    ∧ globalOptions σ' = globalOptions σ
    ∧ (∀ l, l ≠ fresh (dom (objects σ)) →
         objects σ' !! l = objects σ !! l)
    ∧ (fresh (dom (objects σ)) ∉ dom (objects σ))
    ∧ object_at σ' (fresh (dom (objects σ))) =
        (source_object σ (globalOptions σ !! "bcrypt")
           ∪ source_object σ options).
Proof.
  intros Halgo.
  set (target := fresh (dom (objects σ))).
  set (σ0 := (new_object σ).2).
  assert (Hfresh : target ∉ dom (objects σ)) by apply is_fresh.
  assert (Hnew : new_object σ = (Normal target, σ0)) by done.
  assert (Hg0 : globalOptions σ0 = globalOptions σ) by done.
  assert (Ht0 : object_at σ0 target = ∅).
  { unfold object_at, σ0, new_object. simpl. by rewrite lookup_insert_eq. }
  destruct (assign_two_spec target options (globalOptions σ !! "bcrypt") σ0)
    as (σ1 & σ' & Hrun & Hg & Hf & Hf1 & Ht1 & Ht').
  assert (Heff : object_at σ' target =
            source_object σ (globalOptions σ !! "bcrypt")
              ∪ source_object σ options).
  { rewrite Ht', Ht1, Ht0. unfold σ0. rewrite source_object_new_object.
    rewrite (right_id_L ∅ (∪)).
    destruct (globalOptions σ !! "bcrypt") as [lg|]; simpl; [|done].
    destruct (decide (lg = target)) as [->|Hne].
    - rewrite Ht1, Ht0. unfold σ0. rewrite source_object_new_object.
      rewrite (right_id_L ∅ (∪)), (idemp_L (∪)).
      assert (H : object_at σ target = ∅).
      { unfold object_at. apply not_elem_of_dom in Hfresh. by rewrite Hfresh. }
      by rewrite H, (left_id_L ∅ (∪)).
    - rewrite (object_at_frame σ0 σ1 lg (Hf1 lg Hne)).
      unfold σ0. by rewrite object_at_new_object. }
  exists σ'. split; [|split; [|split; [|split]]]; try done.
  - unfold hash. rewrite Halgo. simpl.
    rewrite (bind_Normal _ _ σ target σ0 Hnew).
    rewrite (bind_Normal _ _ σ0 (globalOptions σ !! "bcrypt") σ0);
      [|by unfold get_global; rewrite Hg0].
    rewrite (bind_Normal _ _ σ0 target σ' Hrun).
    unfold bind, get_property, ret. by rewrite Heff.
  - intros l Hl. rewrite Hf by done. unfold σ0, new_object. simpl.
    by rewrite lookup_insert_ne.
Qed.

(* ================================================================= *)
(** ** Decoding and failure: [getInfo], [verify], [needsRehash] *)

Lemma is_throw_true {A} (c : completion A) :
  is_throw c = true ↔ ∃ e, c = Throw e.
Proof.
  destruct c as [a|e]; simpl; split; try done.
  - by intros [e H].
  - intros _. by exists e.
Qed.

Lemma twin_getRounds_error hash e :
  twin_getRounds hash = Throw e → e = invalid_hash hash.
Proof.
  unfold twin_getRounds. destruct (HASH_RE_rounds hash); [done|].
  by intros [= <-].
Qed.

(** C5 (amended). [getInfo] fails exactly when the string does not
    match the grammar dollar, token, dollar, or its token is a
    registered bcrypt identifier and [bcrypt.getRounds] fails on the
    string. Off the grammar the error is the invalid-hash error. With
    the fallback [getRounds] of index.js, [getRounds] fails exactly
    when no digits closed by a dollar sign follow the token, and every
    failure of [getInfo] is the invalid-hash error. When the string
    matches the grammar and its token is not registered, [getInfo]
    returns the record with algorithm unknown and empty options. *)
Theorem getInfo_failure_characterised (bcrypt : Bcrypt) (hash : string) :
  (is_throw (getInfo bcrypt hash) = true ↔
     ¬ matches_grammar hash
     ∨ ∃ t, tag_of hash t ∧ registered t
            ∧ is_throw (getRounds bcrypt hash) = true)
  ∧ (¬ matches_grammar hash →
       getInfo bcrypt hash = Throw (invalid_hash hash))
  ∧ (getRounds bcrypt = twin_getRounds →
       (is_throw (getRounds bcrypt hash) = true
        ↔ ¬ ∃ d, cost_field_of hash d)
       ∧ (∀ e, getInfo bcrypt hash = Throw e → e = invalid_hash hash))
  ∧ (∀ t, tag_of hash t → ¬ registered t →
       getInfo bcrypt hash = Normal (Info "unknown" "unknown" ∅)).
Proof.
  split; [|split; [|split]].
  - destruct (getAlgoId_cases hash) as [(t & Ht & _)|[Hn _]].
    + destruct (decide (registered t)) as [Hr|Hr].
      * rewrite (getInfo_registered _ _ _ Ht Hr). split.
        -- intros H. right. exists t. split; [done|]. split; [done|].
           by destruct (getRounds bcrypt hash).
        -- intros [Hn|(t' & Ht' & _ & H)]; [destruct Hn; by exists t|].
           by destruct (getRounds bcrypt hash).
      * rewrite (getInfo_unknown _ _ _ Ht Hr). simpl. split; [done|].
        intros [Hn|(t' & Ht' & Hr' & _)]; [destruct Hn; by exists t|].
        destruct Hr. by rewrite (tag_of_unique _ _ _ Ht Ht').
    + rewrite (getInfo_invalid _ _ Hn). simpl. split; [by left|done].
  - apply getInfo_invalid.
  - intros Htwin. split; [rewrite Htwin; apply twin_getRounds_fails|].
    intros e.
    destruct (getAlgoId_cases hash) as [(t & Ht & _)|[Hn _]].
    + destruct (decide (registered t)) as [Hr|Hr].
      * rewrite (getInfo_registered _ _ _ Ht Hr), Htwin.
        destruct (twin_getRounds hash) as [c|e'] eqn:Hc; [done|].
        intros [= <-]. by apply twin_getRounds_error.
      * by rewrite (getInfo_unknown _ _ _ Ht Hr).
    + rewrite (getInfo_invalid _ _ Hn). by intros [= <-].
  - apply getInfo_unknown.
Qed.

Lemma getInfo_failure_characterised_witness :
  getInfo sample_bcrypt "not-a-hash" = Throw (invalid_hash "not-a-hash")
  ∧ (is_throw (getRounds sample_bcrypt "$2y$x7$abc") = true
     ↔ ¬ ∃ d, cost_field_of "$2y$x7$abc" d)
  ∧ getInfo sample_bcrypt "$unknown$abc"
    = Normal (Info "unknown" "unknown" ∅).
Proof.
  destruct (getInfo_failure_characterised sample_bcrypt "not-a-hash")
    as (_ & Hinvalid & _).
  destruct (getInfo_failure_characterised sample_bcrypt "$2y$x7$abc")
    as (_ & _ & Htwin & _).
  destruct (getInfo_failure_characterised sample_bcrypt "$unknown$abc")
    as (_ & _ & _ & Hunknown).
  split; [|split].
  - apply Hinvalid. intros [t [r (H & _)]]. discriminate.
  - by destruct (Htwin eq_refl) as [Hfails _].
  - apply (Hunknown "unknown").
    + exists "abc". by repeat split.
    + intros H. apply registered_ids in H.
      by destruct H as [H|[H|[H|H]]].
Defined.

(** C5, as first stated, fails: the string dollar 2y dollar matches the
    grammar, and [getInfo] still fails on it with the invalid-hash
    error, because no cost field follows the tag. *)
Lemma getInfo_grammar_not_enough :
  matches_grammar "$2y$"
  ∧ getInfo sample_bcrypt "$2y$" = Throw (invalid_hash "$2y$")
  ∧ ¬ (is_throw (getInfo sample_bcrypt "$2y$") = true
       ↔ ¬ matches_grammar "$2y$").
Proof.
  assert (Hm : matches_grammar "$2y$").
  { exists "2y", "". by repeat split. }
  split; [done|]. split; [reflexivity|].
  intros [H _]. by apply (H eq_refl).
Qed.

(** C4. A string that matches the grammar with an unregistered token
    decodes to the unknown algorithm, so [needsRehash] returns true on
    the mismatch with the effective algorithm (the omitted algorithm,
    bcrypt, and any name but the literal unknown), whatever the options
    and the store, and without reading them; a string [getInfo] fails
    on makes [needsRehash] fail with the same error, the invalid-hash
    error when the grammar is not matched. *)
Theorem needsRehash_unknown_or_invalid (bcrypt : Bcrypt) (hash : string)
    (algo : option string) (options : option loc) (σ : store) :
  (∀ t, tag_of hash t → ¬ registered t → or_default algo ≠ "unknown" →
     needsRehash bcrypt hash algo options σ = (Normal true, σ))
  ∧ (∀ e, getInfo bcrypt hash = Throw e →
       needsRehash bcrypt hash algo options σ = (Throw e, σ))
  ∧ (¬ matches_grammar hash →
       needsRehash bcrypt hash algo options σ
       = (Throw (invalid_hash hash), σ)).
Proof.
  split; [|split].
  - intros t Ht Hr Ha.
    apply (needsRehash_mismatch _ _ _ _ _ (Info "unknown" "unknown" ∅)).
    + by apply (getInfo_unknown _ _ t).
    + simpl. congruence.
  - intros e. apply needsRehash_Throw.
  - intros Hn. apply needsRehash_Throw. by apply getInfo_invalid.
Qed.

Lemma needsRehash_unknown_or_invalid_witness :
  needsRehash sample_bcrypt "$unknown$xyz" None None initial_store
    = (Normal true, initial_store)
  ∧ needsRehash sample_bcrypt "not-a-hash" None None initial_store
    = (Throw (invalid_hash "not-a-hash"), initial_store).
Proof.
  destruct (needsRehash_unknown_or_invalid sample_bcrypt "$unknown$xyz"
              None None initial_store) as [H1 _].
  destruct (needsRehash_unknown_or_invalid sample_bcrypt "not-a-hash"
              None None initial_store) as (_ & _ & H3).
  split.
  - apply (H1 "unknown").
    + exists "xyz". by repeat split.
    + intros H. apply registered_ids in H.
      by destruct H as [H|[H|[H|H]]].
    + done.
  - apply H3. intros [t [r (H & _)]]. discriminate.
Defined.

(** When the algorithm asked for is literally the name unknown, an
    undecodable tag is no mismatch, and no freshness rule applies. *)
Lemma needsRehash_unknown_requested bcrypt hash options σ t :
  tag_of hash t → ¬ registered t →
  needsRehash bcrypt hash (Some "unknown") options σ = (Normal false, σ).
Proof.
  intros Ht Hr. unfold needsRehash, bind, lift.
  by rewrite (getInfo_unknown _ _ _ Ht Hr).
Qed.

(** C6 (amended). For every non-empty algorithm name other than bcrypt,
    [hash] throws the unsupported-algorithm error and leaves the store
    as it was; for every hash string that decodes to the unknown
    algorithm, [verify] throws the unsupported-algorithm error. *)
Theorem unsupported_algorithm_fails (bcrypt : Bcrypt) (password : string) :
  (∀ name options σ, name ≠ "" → name ≠ "bcrypt" →
     hash bcrypt password (Some name) options σ
     = (Throw unsupported_algorithm, σ))
  ∧ (∀ hash i, getInfo bcrypt hash = Normal i → info_algo i = "unknown" →
       verify bcrypt password hash = Throw unsupported_algorithm).
Proof.
  split.
  - intros name options σ Hne Hnb. apply hash_unsupported.
    by rewrite or_default_Some.
  - intros hash i. apply verify_unknown.
Qed.

Lemma unsupported_algorithm_fails_witness :
  hash sample_bcrypt "secret" (Some "argon2") None initial_store
  = (Throw unsupported_algorithm, initial_store)
  ∧ verify sample_bcrypt "secret" "$unknown$abc"
    = Throw unsupported_algorithm.
Proof.
  destruct (unsupported_algorithm_fails sample_bcrypt "secret") as [Hh Hv].
  split.
  - by apply Hh.
  - by apply (Hv "$unknown$abc" (Info "unknown" "unknown" ∅)).
Defined.

(** C6, as first stated, fails at the empty name: it is a name other
    than bcrypt, and [hash] hashes with bcrypt. *)
Lemma hash_empty_name_supported :
  "" ≠ "bcrypt"
  ∧ (hash sample_bcrypt "secret" (Some "") None initial_store).1
    = Normal (Fulfilled (bcrypt_hash_string "2y" 10 sample_payload))
  ∧ (hash sample_bcrypt "secret" (Some "") None initial_store).1
    ≠ Throw unsupported_algorithm.
Proof.
  assert (H : (hash sample_bcrypt "secret" (Some "") None initial_store).1
              = Normal (Fulfilled (bcrypt_hash_string "2y" 10 sample_payload)))
    by (vm_compute; reflexivity).
  split; [done|]. split; [exact H|]. by rewrite H.
Qed.

(* ================================================================= *)
(** ** Staleness *)

Lemma getInfo_bcrypt_shape bcrypt hash i c :
  getInfo bcrypt hash = Normal i → info_algo i = "bcrypt" →
  info_options i !! "cost" = Some (VNum c) →
  i = Info "bcrypt" (info_id i) {[ "cost" := VNum c ]}.
Proof.
  intros H Ha Hc.
  destruct (getInfo_Normal _ _ _ H) as [(t & c' & _ & _ & _ & ->)|(t & _ & _ & ->)].
  - simpl in *. rewrite lookup_singleton_eq in Hc. by injection Hc as ->.
  - discriminate.
Qed.

Lemma js_lt_number c v :
  js_lt (VNum c) v = true ↔ ∃ r, ToNumber v = Some r ∧ c < r.
Proof.
  unfold js_lt. simpl. destruct (ToNumber v) as [r|].
  - rewrite Z.ltb_lt. split; [intros H; by exists r|].
    by intros (r' & [= <-] & H).
  - split; [done|]. by intros (r & H & _).
Qed.

(** C1 (amended). For a hash that decodes as bcrypt with cost [c], any
    per-call options, present or omitted, and any default object for
    bcrypt, [needsRehash(hash, 'bcrypt', options)] returns a boolean,
    true exactly when the decoded tag is not 2y or [c] is strictly
    less than the number the required cost converts to; the required
    cost is the per-call cost when that is truthy and the cost of the
    defaults otherwise, and a required cost that converts to no number
    makes the hash fresh. In particular, with a numeric default [g] and
    a per-call cost that is the number [n] or is missing, the hash is
    compared with [n] when [n] is not zero and with [g] otherwise. *)
Theorem needsRehash_bcrypt_required_cost (bcrypt : Bcrypt) (hash : string)
    (options : option loc) (σ : store) (i : info) (c : Z) (lg : loc) :
  getInfo bcrypt hash = Normal i →
  info_algo i = "bcrypt" →
  info_options i !! "cost" = Some (VNum c) →
  globalOptions σ !! "bcrypt" = Some lg →
  ∃ b, needsRehash bcrypt hash (Some "bcrypt") options σ = (Normal b, σ)
       ∧ (b = true ↔
            info_id i ≠ "2y"
            ∨ ∃ r, ToNumber (required_cost σ options lg) = Some r ∧ c < r)
       ∧ (∀ (g : Z) (o : option Z),
            object_at σ lg !! "cost" = Some (VNum g) →
            option_cost σ options = from_option VNum VUndefined o →
            (b = true ↔
               info_id i ≠ "2y"
               ∨ c < match o with
                     | Some n => if n =? 0 then g else n
                     | None => g
                     end)).
Proof.
  intros H Ha Hc Hlg.
  rewrite (getInfo_bcrypt_shape _ _ _ _ H Ha Hc) in H.
  rewrite (needsRehash_bcrypt _ _ (Some "bcrypt") _ _ _ _ H eq_refl).
  rewrite Hlg.
  destruct (String.eqb_spec (info_id i) "2y") as [Heq|Hne]; simpl.
  - exists (js_lt (VNum c) (required_cost σ options lg)).
    split; [unfold required_cost; by destruct (truthy _)|].
    split.
    + rewrite js_lt_number. intuition.
    + intros g o Hg Ho. rewrite js_lt_number.
      assert (Hreq : ToNumber (required_cost σ options lg)
                     = Some match o with
                            | Some n => if n =? 0 then g else n
                            | None => g
                            end).
      { unfold required_cost. rewrite Ho, Hg.
        destruct o as [n|]; simpl; [|done].
        by destruct (Z.eqb_spec n 0). }
      rewrite Hreq. split.
      * intros (r & [= <-] & ?). by right.
      * intros [?|?]; [done|]. by eexists.
  - exists true. split; [done|]. split; [intuition|]. intros. intuition.
Qed.

Lemma needsRehash_bcrypt_required_cost_witness :
  ∃ b, needsRehash sample_bcrypt
         "$2y$10$abcdefghijklmnopqrstuv0123456789ABCDEFGHIJKLMNOPQRSTU"
         (Some "bcrypt") (Some 2%positive)
         (store_with (VNum 12) (VBool true))
       = (Normal b, store_with (VNum 12) (VBool true))
       ∧ (b = true ↔
            "2y" ≠ "2y"
            ∨ ∃ r, ToNumber (required_cost (store_with (VNum 12) (VBool true))
                               (Some 2%positive) 1%positive) = Some r
                   ∧ 10 < r).
Proof.
  destruct (needsRehash_bcrypt_required_cost sample_bcrypt
              "$2y$10$abcdefghijklmnopqrstuv0123456789ABCDEFGHIJKLMNOPQRSTU"
              (Some 2%positive) (store_with (VNum 12) (VBool true))
              (Info "bcrypt" "2y" {[ "cost" := VNum 10 ]}) 10 1%positive)
    as (b & Hrun & Hiff & _); [reflexivity|reflexivity|reflexivity|reflexivity|].
  exists b. split; [exact Hrun|exact Hiff].
Defined.

(** C1, as first stated, fails: with the global default cost 10 and the
    per-call cost 5, a 2y hash of cost 7 is not stale, while 7 is
    below the maximum of 5 and 10. *)
Lemma needsRehash_required_cost_is_not_max :
  getInfo sample_bcrypt
    "$2y$07$abcdefghijklmnopqrstuv0123456789ABCDEFGHIJKLMNOPQRSTU"
  = Normal (Info "bcrypt" "2y" {[ "cost" := VNum 7 ]})
  ∧ (needsRehash sample_bcrypt
       "$2y$07$abcdefghijklmnopqrstuv0123456789ABCDEFGHIJKLMNOPQRSTU"
       (Some "bcrypt") (Some 2%positive) (store_with (VNum 10) (VNum 5))).1
    = Normal false
  ∧ ¬ ((needsRehash sample_bcrypt
          "$2y$07$abcdefghijklmnopqrstuv0123456789ABCDEFGHIJKLMNOPQRSTU"
          (Some "bcrypt") (Some 2%positive)
          (store_with (VNum 10) (VNum 5))).1 = Normal true
       ↔ "2y" ≠ "2y" ∨ 7 < Z.max 5 10).
Proof.
  assert (H : (needsRehash sample_bcrypt
       "$2y$07$abcdefghijklmnopqrstuv0123456789ABCDEFGHIJKLMNOPQRSTU"
       (Some "bcrypt") (Some 2%positive) (store_with (VNum 10) (VNum 5))).1
    = Normal false) by (vm_compute; reflexivity).
  split; [reflexivity|]. split; [exact H|].
  rewrite H. intros [_ Hback].
  assert (Habs : @Normal bool false = Normal true) by (apply Hback; right; lia).
  discriminate.
Qed.

(** C8. If [needsRehash(hash)], with no algorithm and no options,
    returns false in a store, and another store has a numeric global
    default cost strictly above the cost decoded from the hash, then
    [needsRehash(hash)] returns true in that store. *)
Theorem needsRehash_monotone (bcrypt : Bcrypt) (hash : string)
    (σ σ' : store) (i : info) (c : Z) (lg : loc) (g' : Z) :
  (needsRehash bcrypt hash None None σ).1 = Normal false →
  getInfo bcrypt hash = Normal i →
  info_options i !! "cost" = Some (VNum c) →
  globalOptions σ' !! "bcrypt" = Some lg →
  object_at σ' lg !! "cost" = Some (VNum g') →
  c < g' →
  needsRehash bcrypt hash None None σ' = (Normal true, σ').
Proof.
  intros Hfalse H Hc Hlg Hg Hlt.
  destruct (getInfo_Normal _ _ _ H) as [(t & c' & _ & _ & _ & ->)|(t & _ & _ & ->)].
  - simpl in Hc. rewrite lookup_singleton_eq in Hc. injection Hc as ->.
    rewrite (needsRehash_bcrypt _ _ None _ _ _ _ H eq_refl) in Hfalse.
    rewrite (needsRehash_bcrypt _ _ None _ _ _ _ H eq_refl).
    destruct (negb (String.eqb t "2y")); [discriminate|].
    simpl. rewrite Hlg, Hg. simpl. unfold js_lt. simpl.
    by destruct (Z.ltb_spec c g'); [|lia].
  - simpl in Hc. by rewrite lookup_empty in Hc.
Qed.

Lemma needsRehash_monotone_witness :
  needsRehash sample_bcrypt
    "$2y$10$abcdefghijklmnopqrstuv0123456789ABCDEFGHIJKLMNOPQRSTU"
    None None (store_with (VNum 12) VUndefined)
  = (Normal true, store_with (VNum 12) VUndefined).
Proof.
  apply (needsRehash_monotone sample_bcrypt
           "$2y$10$abcdefghijklmnopqrstuv0123456789ABCDEFGHIJKLMNOPQRSTU"
           initial_store (store_with (VNum 12) VUndefined)
           (Info "bcrypt" "2y" {[ "cost" := VNum 10 ]}) 10 1%positive 12);
    [reflexivity|reflexivity|reflexivity|reflexivity|reflexivity|lia].
Defined.

(** C10. Falsy arguments count as absent: with a per-call
    [options.cost] of 0, [needsRehash] answers as it does with no
    options, comparing the decoded cost with the global default; and
    [hash] and [needsRehash] given the empty string as algorithm do
    what they do with the algorithm omitted, that is with bcrypt. *)
Theorem falsy_arguments_are_absent (bcrypt : Bcrypt) (σ : store) :
  (∀ hash algo lo, object_at σ lo !! "cost" = Some (VNum 0) →
     needsRehash bcrypt hash algo (Some lo) σ
     = needsRehash bcrypt hash algo None σ)
  ∧ (∀ hash lo t c lg g,
       object_at σ lo !! "cost" = Some (VNum 0) →
       getInfo bcrypt hash = Normal (Info "bcrypt" t {[ "cost" := VNum c ]}) →
       globalOptions σ !! "bcrypt" = Some lg →
       object_at σ lg !! "cost" = Some (VNum g) →
       needsRehash bcrypt hash (Some "bcrypt") (Some lo) σ
       = (Normal (negb (String.eqb t "2y") || (c <? g)), σ))
  ∧ (∀ password options,
       hash bcrypt password (Some "") options σ
       = hash bcrypt password None options σ
       ∧ hash bcrypt password (Some "") options σ
         = hash bcrypt password (Some "bcrypt") options σ)
  ∧ (∀ hash options,
       needsRehash bcrypt hash (Some "") options σ
       = needsRehash bcrypt hash None options σ
       ∧ needsRehash bcrypt hash (Some "") options σ
         = needsRehash bcrypt hash (Some "bcrypt") options σ).
Proof.
  split; [|split; [|split]].
  - intros hash algo lo Hlo. unfold needsRehash, bind, lift.
    destruct (getInfo bcrypt hash) as [i|e]; [|done].
    destruct (negb (String.eqb (info_algo i) (or_default algo))); [done|].
    destruct (String.eqb (or_default algo) "bcrypt"); [|done].
    destruct (negb (String.eqb (info_id i) "2y")); [done|].
    unfold get_property. rewrite Hlo. simpl. done.
  - intros hash lo t c lg g Hlo H Hlg Hg.
    rewrite (needsRehash_bcrypt _ _ (Some "bcrypt") _ _ _ _ H eq_refl).
    simpl. rewrite Hlo, Hlg, Hg. simpl.
    by destruct (negb (String.eqb t "2y")).
  - done.
  - done.
Qed.

Lemma falsy_arguments_are_absent_witness :
  needsRehash sample_bcrypt
    "$2y$07$abcdefghijklmnopqrstuv0123456789ABCDEFGHIJKLMNOPQRSTU"
    (Some "bcrypt") (Some 2%positive) (store_with (VNum 10) (VNum 0))
  = (Normal true, store_with (VNum 10) (VNum 0)).
Proof.
  destruct (falsy_arguments_are_absent sample_bcrypt
              (store_with (VNum 10) (VNum 0))) as (_ & H & _).
  apply (H _ 2%positive "2y" 7 1%positive 10); reflexivity.
Defined.

(** The cost [hash] hands to the primitive when the defaults hold one. *)
Lemma hash_default_cost_used bcrypt password options σ lg g :
  globalOptions σ !! "bcrypt" = Some lg →
  object_at σ lg !! "cost" = Some g →
  ∃ σ', hash bcrypt password (Some "bcrypt") options σ
        = (Normal (hash_password bcrypt password g), σ').
Proof.
  intros Hlg Hg.
  destruct (hash_spec bcrypt password (Some "bcrypt") options σ eq_refl)
    as (σ' & Hrun & _).
  rewrite Hlg in Hrun. simpl in Hrun.
  rewrite (lookup_union_Some_l _ _ _ _ Hg) in Hrun. by exists σ'.
Qed.

(* ================================================================= *)
(** ** Effective parameters of [hash] *)

(** C2. [hash(password, 'bcrypt', options)] hands the primitive the
    cost of the object [assign({}, options, globalOptions.bcrypt)]
    builds: for every key the global bcrypt defaults hold, the merged
    object has the default's value, whatever the caller supplied for
    it, and the caller's value only for the other keys; in particular a
    default cost is the cost used. *)
Theorem hash_policy_defaults_win (bcrypt : Bcrypt) (password : string)
    (options : option loc) (σ : store) (lg : loc) :
  globalOptions σ !! "bcrypt" = Some lg →
  ∃ (σ' : store) (effective : gmap string val),
    object_at σ' (fresh (dom (objects σ))) = effective
    ∧ (∀ key v, object_at σ lg !! key = Some v → effective !! key = Some v)
    ∧ (∀ key, object_at σ lg !! key = None →
         effective !! key = source_object σ options !! key)
    ∧ hash bcrypt password (Some "bcrypt") options σ
      = (Normal (hash_password bcrypt password
                   (default VUndefined (effective !! "cost"))), σ')
    ∧ (∀ g, object_at σ lg !! "cost" = Some g →
         hash bcrypt password (Some "bcrypt") options σ
         = (Normal (hash_password bcrypt password g), σ')).
Proof.
  intros Hlg.
  destruct (hash_spec bcrypt password (Some "bcrypt") options σ eq_refl)
    as (σ' & Hrun & _ & _ & _ & Heff).
  rewrite Hlg in Hrun, Heff. simpl in Hrun, Heff.
  exists σ', (object_at σ lg ∪ source_object σ options).
  split; [done|]. split; [|split; [|split]].
  - intros key v Hv. by apply lookup_union_Some_l.
  - intros key Hn. by apply lookup_union_r.
  - done.
  - intros g Hg. rewrite Hrun.
    by rewrite (lookup_union_Some_l _ _ _ _ Hg).
Qed.

Lemma hash_policy_defaults_win_witness :
  ∃ σ', hash sample_bcrypt "secret" (Some "bcrypt") (Some 2%positive)
          (store_with (VNum 12) (VNum 8))
        = (Normal (Fulfilled (bcrypt_hash_string "2y" 12 sample_payload)), σ').
Proof.
  destruct (hash_policy_defaults_win sample_bcrypt "secret" (Some 2%positive)
              (store_with (VNum 12) (VNum 8)) 1%positive eq_refl)
    as (σ' & effective & _ & _ & _ & _ & Hcost).
  exists σ'. exact (Hcost (VNum 12) eq_refl).
Defined.

(* ================================================================= *)
(** ** Decoding what [hash] produces *)

Lemma digit_char_small d :
  0 ≤ d ≤ 9 →
  is_digit (digit_char d) = true ∧ digit_value (digit_char d) = d.
Proof.
  intros Hd.
  assert (H : d = 0 ∨ d = 1 ∨ d = 2 ∨ d = 3 ∨ d = 4 ∨ d = 5 ∨ d = 6
              ∨ d = 7 ∨ d = 8 ∨ d = 9) by lia.
  repeat (destruct H as [->|H]; [by split|]). by subst.
Qed.

Lemma registered_token t :
  registered t → t ≠ EmptyString ∧ has_dollar t = false.
Proof.
  intros H. apply registered_ids in H.
  by destruct H as [-> | [-> | [-> | ->]]].
Qed.

(** The fallback [getRounds] reads the two-digit cost back. *)
Lemma twin_getRounds_format tag c payload :
  registered tag → 0 ≤ c < 100 →
  twin_getRounds (bcrypt_hash_string tag c payload) = Normal c.
Proof.
  intros [Hne Hd]%registered_token Hc.
  unfold twin_getRounds, HASH_RE_rounds.
  assert (Ha : HASH_RE_algo (bcrypt_hash_string tag c payload)
               = Some (tag, two_digits c +:+ String "$" payload))
    by by apply HASH_RE_algo_spec.
  rewrite Ha.
  assert (Hq : 0 ≤ c / 10 ≤ 9).
  { split; [apply Z.div_pos; lia|].
    apply Z.lt_succ_r. apply Z.div_lt_upper_bound; lia. }
  assert (Hr : 0 ≤ c mod 10 ≤ 9) by (pose proof (Z.mod_pos_bound c 10); lia).
  destruct (digit_char_small _ Hq) as [Hq1 Hq2].
  destruct (digit_char_small _ Hr) as [Hr1 Hr2].
  unfold two_digits.
  generalize dependent (digit_char (c / 10)).
  generalize dependent (digit_char (c mod 10)).
  intros d2 Hr1 Hr2 d1 Hq1 Hq2. simpl.
  rewrite Hq1, Hr1. simpl.
  unfold to_number_digits. simpl. rewrite Hq2, Hr2.
  f_equal. pose proof (Z.div_mod c 10). lia.
Qed.

Lemma getInfo_twin_format cmp hsh tag c payload :
  registered tag → 0 ≤ c < 100 →
  getInfo (twin_bcrypt cmp hsh) (bcrypt_hash_string tag c payload)
  = Normal (Info "bcrypt" tag {[ "cost" := VNum c ]}).
Proof.
  intros Hr Hc.
  rewrite (getInfo_registered _ _ tag); [|by destruct (registered_token _ Hr);
    eexists; repeat split|done].
  simpl. by rewrite twin_getRounds_format.
Qed.

(** C3 (the code departs from it). With a primitive of the bcrypt
    format and a global default cost [g] between 4 and 31, the hash
    that [hash(password, 'bcrypt', options)] produces decodes to the
    cost [g], whatever cost the caller's options carry: with the
    default 10 and the per-call cost 12 the decoded cost is 10. *)
Theorem hash_decodes_to_default_cost
    (cmp : string → string → promise bool)
    (hsh : string → val → promise string)
    (password : string) (options : option loc) (σ : store) (lg : loc)
    (g : Z) :
  bcrypt_format hsh →
  globalOptions σ !! "bcrypt" = Some lg →
  object_at σ lg !! "cost" = Some (VNum g) →
  4 ≤ g ≤ 31 →
  ∃ σ' h i,
    hash (twin_bcrypt cmp hsh) password (Some "bcrypt") options σ
    = (Normal (Fulfilled h), σ')
    ∧ getInfo (twin_bcrypt cmp hsh) h = Normal i
    ∧ info_options i !! "cost" = Some (VNum g).
Proof.
  intros Hfmt Hlg Hg Hrange.
  destruct (hash_default_cost_used (twin_bcrypt cmp hsh) password
              options σ lg (VNum g) Hlg Hg) as (σ' & Hrun).
  destruct (Hfmt password g Hrange) as (tag & payload & Hreg & _ & Hh).
  exists σ', (bcrypt_hash_string tag g payload),
    (Info "bcrypt" tag {[ "cost" := VNum g ]}).
  split; [|split].
  - rewrite Hrun. simpl. by rewrite Hh.
  - apply getInfo_twin_format; [done|lia].
  - apply lookup_singleton_eq.
Qed.

Lemma hash_decodes_to_default_cost_witness :
  object_at (store_with (VNum 10) (VNum 12)) 2%positive !! "cost"
  = Some (VNum 12)
  ∧ ∃ σ' h i,
      hash sample_bcrypt "secret" (Some "bcrypt") (Some 2%positive)
        (store_with (VNum 10) (VNum 12))
      = (Normal (Fulfilled h), σ')
      ∧ getInfo sample_bcrypt h = Normal i
      ∧ info_options i !! "cost" = Some (VNum 10).
Proof.
  split; [reflexivity|].
  apply (hash_decodes_to_default_cost sample_bcryptjs_compare
           sample_bcryptjs_hash "secret" (Some 2%positive)
           (store_with (VNum 10) (VNum 12)) 1%positive 10 sample_format);
    [reflexivity|reflexivity|lia].
Defined.

(* ================================================================= *)
(** ** What the engines leave untouched *)

Lemma needsRehash_store bcrypt hash algo options σ :
  (needsRehash bcrypt hash algo options σ).2 = σ.
Proof.
  unfold needsRehash, bind, lift.
  destruct (getInfo bcrypt hash) as [i|e]; [|done].
  destruct (negb (String.eqb (info_algo i) (or_default algo))); [done|].
  destruct (String.eqb (or_default algo) "bcrypt"); [|done].
  destruct (negb (String.eqb (info_id i) "2y")); [done|].
  destruct options as [lo|]; simpl.
  - destruct (truthy _); [done|].
    by destruct (globalOptions σ !! "bcrypt").
  - by destruct (globalOptions σ !! "bcrypt").
Qed.

(** C9. No engine changes [globalOptions], the default option objects
    or the caller's options object: after [hash], [globalOptions] is
    the same map and every object of the store is as it was, the
    effective parameters being held by a reference that no object had
    before the call; [needsRehash] returns the store it was given;
    [getInfo] and [verify] take no store, and lifted into the store
    monad they return it as it was. *)
Theorem engines_preserve_store (bcrypt : Bcrypt) (σ : store) :
  (∀ password algo options,
     globalOptions (hash bcrypt password algo options σ).2 = globalOptions σ
     ∧ (∀ l, l ∈ dom (objects σ) →
          objects (hash bcrypt password algo options σ).2 !! l
          = objects σ !! l))
  ∧ (∀ password algo options, or_default algo = "bcrypt" →
       ∃ target,
         (target ∉ dom (objects σ))
         ∧ (∀ l, l ≠ target →
              objects (hash bcrypt password algo options σ).2 !! l
              = objects σ !! l)
         ∧ object_at (hash bcrypt password algo options σ).2 target
           = source_object σ (globalOptions σ !! "bcrypt")
               ∪ source_object σ options)
  ∧ (∀ hash algo options,
       (needsRehash bcrypt hash algo options σ).2 = σ)
  ∧ (∀ hash, (lift (getInfo bcrypt hash) σ).2 = σ)
  ∧ (∀ password hash, (lift (verify bcrypt password hash) σ).2 = σ).
Proof.
  split; [|split; [|split; [|split]]].
  - intros password algo options.
    destruct (decide (or_default algo = "bcrypt")) as [Ha|Ha].
    + destruct (hash_spec bcrypt password algo options σ Ha)
        as (σ' & Hrun & Hg & Hframe & Hfresh & _).
      rewrite Hrun. simpl. split; [done|].
      intros l Hl. apply Hframe. by intros ->.
    + by rewrite (hash_unsupported _ _ _ _ _ Ha).
  - intros password algo options Ha.
    destruct (hash_spec bcrypt password algo options σ Ha)
      as (σ' & Hrun & Hg & Hframe & Hfresh & Heff).
    exists (fresh (dom (objects σ))). rewrite Hrun. by simpl.
  - intros. apply needsRehash_store.
  - done.
  - done.
Qed.

Lemma engines_preserve_store_witness :
  objects (hash sample_bcrypt "secret" None (Some 2%positive)
             (store_with (VNum 10) (VNum 12))).2 !! 2%positive
  = Some {[ "cost" := VNum 12 ]}
  ∧ objects (hash sample_bcrypt "secret" None (Some 2%positive)
               (store_with (VNum 10) (VNum 12))).2 !! 1%positive
    = Some {[ "cost" := VNum 10 ]}.
Proof.
  destruct (engines_preserve_store sample_bcrypt
              (store_with (VNum 10) (VNum 12))) as [H _].
  destruct (H "secret" None (Some 2%positive)) as [_ Hframe].
  split.
  - etrans; [apply (Hframe 2%positive)|reflexivity].
    apply elem_of_dom. by eexists.
  - etrans; [apply (Hframe 1%positive)|reflexivity].
    apply elem_of_dom. by eexists.
Defined.

(* ================================================================= *)
(** ** The async wrapper *)

Section AsyncWrapperFacts.
Context {Arg A R St : Type}.
Variable is_function : Arg → bool.
Variable asCallback : promise A → option Arg → R.

Lemma pop_callback_function (args : list Arg) (cb : Arg) :
  is_function cb = true →
  pop_callback is_function (args ++ [cb]) = (args, Some cb).
Proof.
  intros H. unfold pop_callback.
  by rewrite last_snoc, H, removelast_last.
Qed.

Lemma pop_callback_none (args : list Arg) :
  (∀ a, last args = Some a → is_function a = false) →
  pop_callback is_function args = (args, None).
Proof.
  intros H. unfold pop_callback.
  destruct (last args) as [a|] eqn:Hl; [|done]. by rewrite (H a).
Qed.

Lemma makeAsyncWrapper_run
    (fn : list Arg → St → completion (resolution A) * St)
    arguments args callback s r s' :
  pop_callback is_function arguments = (args, callback) →
  fn args s = (r, s') →
  makeAsyncWrapper is_function asCallback fn arguments s =
    (Normal (asCallback
               (Promise_new match r with
                            | Normal x => Normal (Some x)
                            | Throw e => Throw e
                            end) callback), s').
Proof. intros Hp Hf. unfold makeAsyncWrapper. by rewrite Hp, Hf. Qed.
End AsyncWrapperFacts.

(** The wrapper on a function that throws, for any [asCallback]: the
    call completes normally with what [asCallback] returns for the
    promise rejected with the error and the callback, and it is the very
    call made when the function returns a promise rejected with it. *)
Lemma makeAsyncWrapper_throw {Arg A R St : Type}
    (is_function : Arg → bool) (asCallback : promise A → option Arg → R)
    (fn : list Arg → St → completion (resolution A) * St)
    (args : list Arg) (s s' : St) (e : exn) :
  fn args s = (Throw e, s') →
  (∀ cb, is_function cb = true →
     makeAsyncWrapper is_function asCallback fn (args ++ [cb]) s
     = (Normal (asCallback (Rejected e) (Some cb)), s'))
  ∧ ((∀ a, last args = Some a → is_function a = false) →
       makeAsyncWrapper is_function asCallback fn args s
       = (Normal (asCallback (Rejected e) None), s'))
  ∧ (∀ fn' : list Arg → St → completion (resolution A) * St,
       fn' args s = (Normal (Thenable (Rejected e)), s') →
       (∀ cb, is_function cb = true →
          makeAsyncWrapper is_function asCallback fn (args ++ [cb]) s
          = makeAsyncWrapper is_function asCallback fn' (args ++ [cb]) s)
       ∧ ((∀ a, last args = Some a → is_function a = false) →
            makeAsyncWrapper is_function asCallback fn args s
            = makeAsyncWrapper is_function asCallback fn' args s)).
Proof.
  intros Hthrow. split; [|split].
  - intros cb Hcb.
    by rewrite (makeAsyncWrapper_run _ _ _ _ _ _ _ _ _
                  (pop_callback_function _ args cb Hcb) Hthrow).
  - intros Hno.
    by rewrite (makeAsyncWrapper_run _ _ _ _ _ _ _ _ _
                  (pop_callback_none _ args Hno) Hthrow).
  - intros fn' Hrej. split.
    + intros cb Hcb.
      rewrite (makeAsyncWrapper_run _ _ _ _ _ _ _ _ _
                 (pop_callback_function _ args cb Hcb) Hthrow).
      by rewrite (makeAsyncWrapper_run _ _ _ _ _ _ _ _ _
                    (pop_callback_function _ args cb Hcb) Hrej).
    + intros Hno.
      rewrite (makeAsyncWrapper_run _ _ _ _ _ _ _ _ _
                 (pop_callback_none _ args Hno) Hthrow).
      by rewrite (makeAsyncWrapper_run _ _ _ _ _ _ _ _ _
                    (pop_callback_none _ args Hno) Hrej).
Qed.

(** C7 (amended). When the wrapped function throws [e] on the arguments
    it is applied to, the call of the wrapper completes normally, with
    [asCallback] as promise-toolbox has it: it returns the promise
    rejected with [e], with a callback as without one; a callback
    supplied as last argument receives one call, with [e] in its error
    slot, and without a callback the rejection is all there is. Both
    are what the call shows when the function instead returns a
    promise rejected with [e]. For any other [asCallback] the call
    still completes normally, with what [asCallback] returns for the
    rejected promise and the callback. *)
Theorem asyncWrapper_captures_throw {Arg A St : Type}
    (is_function : Arg → bool)
    (fn : list Arg → St → completion (resolution A) * St)
    (args : list Arg) (s s' : St) (e : exn) :
  fn args s = (Throw e, s') →
  (∀ cb, is_function cb = true →
     makeAsyncWrapper is_function asCallback_toolbox fn (args ++ [cb]) s
     = (Normal (Observation (Some (Rejected e)) [(cb, CallError e)]), s'))
  ∧ ((∀ a, last args = Some a → is_function a = false) →
       makeAsyncWrapper is_function asCallback_toolbox fn args s
       = (Normal (Observation (Some (Rejected e)) []), s'))
  ∧ (∀ fn' : list Arg → St → completion (resolution A) * St,
       fn' args s = (Normal (Thenable (Rejected e)), s') →
       (∀ cb, is_function cb = true →
          makeAsyncWrapper is_function asCallback_toolbox fn (args ++ [cb]) s
          = makeAsyncWrapper is_function asCallback_toolbox fn'
              (args ++ [cb]) s)
       ∧ ((∀ a, last args = Some a → is_function a = false) →
            makeAsyncWrapper is_function asCallback_toolbox fn args s
            = makeAsyncWrapper is_function asCallback_toolbox fn' args s))
  ∧ (∀ (R : Type) (asCallback : promise A → option Arg → R),
       (∀ cb, is_function cb = true →
          makeAsyncWrapper is_function asCallback fn (args ++ [cb]) s
          = (Normal (asCallback (Rejected e) (Some cb)), s'))
       ∧ ((∀ a, last args = Some a → is_function a = false) →
            makeAsyncWrapper is_function asCallback fn args s
            = (Normal (asCallback (Rejected e) None), s'))).
Proof.
  intros Hthrow.
  destruct (makeAsyncWrapper_throw is_function
              (@asCallback_toolbox Arg A) fn args s s' e Hthrow)
    as (Hcb & Hno & Hsame).
  split; [|split; [|split]].
  - intros cb Hf. by rewrite (Hcb cb Hf).
  - intros Hn. by rewrite (Hno Hn).
  - exact Hsame.
  - intros R asCallback.
    destruct (makeAsyncWrapper_throw is_function asCallback fn args s s' e
                Hthrow) as (Hcb' & Hno' & _).
    by split.
Qed.

Lemma asyncWrapper_captures_throw_witness :
  makeAsyncWrapper arg_isFunction asCallback_toolbox
    (apply_hash sample_bcrypt)
    ([AStr "secret"; AStr "argon2"] ++ [AFun "done"]) initial_store
  = (Normal (Observation (Some (Rejected unsupported_algorithm))
               [(AFun "done", CallError unsupported_algorithm)]),
     initial_store)
  ∧ makeAsyncWrapper arg_isFunction asCallback_toolbox
      (apply_hash sample_bcrypt)
      [AStr "secret"; AStr "argon2"] initial_store
    = (Normal (Observation (Some (Rejected unsupported_algorithm)) []),
       initial_store).
Proof.
  destruct (asyncWrapper_captures_throw arg_isFunction
              (apply_hash sample_bcrypt) [AStr "secret"; AStr "argon2"]
              initial_store initial_store unsupported_algorithm eq_refl)
    as (Hcb & Hno & _).
  split.
  - by apply Hcb.
  - apply Hno. intros a [= <-]. done.
Defined.

(** C7, as first stated, fails where it has the call return
    [undefined] when a callback is supplied: the call returns the
    rejected promise then too. *)
Lemma asyncWrapper_returns_promise_with_callback :
  (makeAsyncWrapper arg_isFunction asCallback_toolbox
     (apply_hash sample_bcrypt)
     ([AStr "secret"; AStr "argon2"] ++ [AFun "done"]) initial_store).1
  = Normal (Observation (Some (Rejected unsupported_algorithm))
              [(AFun "done", CallError unsupported_algorithm)])
  ∧ ¬ ∃ o, (makeAsyncWrapper arg_isFunction asCallback_toolbox
              (apply_hash sample_bcrypt)
              ([AStr "secret"; AStr "argon2"] ++ [AFun "done"])
              initial_store).1 = Normal o
           ∧ returned o = None.
Proof.
  split; [reflexivity|].
  intros (o & Ho & Hnone).
  assert (H : (makeAsyncWrapper arg_isFunction asCallback_toolbox
                 (apply_hash sample_bcrypt)
                 ([AStr "secret"; AStr "argon2"] ++ [AFun "done"])
                 initial_store).1
              = Normal (Observation (Some (Rejected unsupported_algorithm))
                          [(AFun "done", CallError unsupported_algorithm)]))
    by reflexivity.
  rewrite H in Ho. injection Ho as <-. discriminate.
Qed.

(* ================================================================= *)
(** * Further properties of index.js *)

(** ** The identifier table *)

Lemma index_ids_lookup algo ids (m : gmap string string) i a :
  foldl (fun m i => <[i := algo]> m) m ids !! i = Some a ↔
  (i ∈ ids ∧ a = algo) ∨ ((i ∉ ids) ∧ m !! i = Some a).
Proof.
  revert m. induction ids as [|j ids IH]; intros m; simpl.
  - split; [intros H; right; split; [apply not_elem_of_nil|done]|].
    intros [[H _]|[_ H]]; [by apply elem_of_nil in H|done].
  - rewrite IH. split.
    + intros [[Hin ->]|[Hnin Hm]].
      * left. split; [by right|done].
      * apply lookup_insert_Some in Hm as [[-> ->]|[Hne Hm]].
        -- left. split; [by left|done].
        -- right. split; [|done].
           intros [?|?]%elem_of_cons; [congruence|done].
    + intros [[Hin ->]|[Hnin Hm]].
      * destruct (decide (i ∈ ids)) as [Hi|Hi]; [left; by split|].
        apply elem_of_cons in Hin as [->|Hin]; [|done].
        right. split; [done|]. apply lookup_insert_eq.
      * apply not_elem_of_cons in Hnin as [Hne Hnin].
        right. split; [done|]. by rewrite lookup_insert_ne.
Qed.

Lemma algosById_fold_lookup table (m : gmap string string) i a :
  foldl (fun algosById '(algo, ids) =>
           foldl (fun m i => <[i := algo]> m) algosById ids) m table !! i
  = Some a →
  (∃ ids, (a, ids) ∈ table ∧ i ∈ ids) ∨ m !! i = Some a.
Proof.
  revert m. induction table as [|[algo ids] table IH]; intros m; simpl.
  - by right.
  - intros H. apply IH in H as [(ids' & Hin & Hi)|H].
    + left. exists ids'. split; [by right|done].
    + apply index_ids_lookup in H as [[Hi ->]|[_ H]]; [|by right].
      left. exists ids. split; [by left|done].
Qed.

Lemma algosById_fold_keeps table (m : gmap string string) i :
  is_Some (m !! i) →
  is_Some (foldl (fun algosById '(algo, ids) =>
                    foldl (fun m i => <[i := algo]> m) algosById ids)
             m table !! i).
Proof.
  revert m. induction table as [|[algo ids] table IH]; intros m; simpl;
    [done|].
  intros [a Ha]. apply IH.
  destruct (decide (i ∈ ids)) as [Hin|Hnin].
  - exists algo. apply index_ids_lookup. by left.
  - exists a. apply index_ids_lookup. by right.
Qed.

(** X1. The table the builder makes maps an identifier to an algorithm
    only if that algorithm lists it, and maps every listed identifier;
    [IDENTS_TO_ALGOS] is the table built from bcrypt's four
    identifiers, so it maps exactly 2, 2a, 2x and 2y, all to bcrypt. *)
Theorem algosById_of_sound_complete (table : list (string * list string))
    (i : string) :
  (∀ a, algosById_of table !! i = Some a →
     ∃ ids, (a, ids) ∈ table ∧ i ∈ ids)
  ∧ (∀ a ids, (a, ids) ∈ table → i ∈ ids →
       is_Some (algosById_of table !! i))
  ∧ IDENTS_TO_ALGOS = algosById_of idsByAlgo
  ∧ (IDENTS_TO_ALGOS !! i =
       if decide (i ∈ ["2"; "2a"; "2x"; "2y"]) then Some "bcrypt" else None).
Proof.
  split; [|split; [|split]].
  - intros a H. apply algosById_fold_lookup in H as [H|H]; [done|].
    by rewrite lookup_empty in H.
  - intros a ids Hin Hi. unfold algosById_of.
    induction table as [|[algo' ids'] table IH] using rev_ind;
      [by apply elem_of_nil in Hin|].
    rewrite foldl_app. simpl.
    apply elem_of_app in Hin as [Hin|Hin].
    + destruct (IH Hin) as [b Hb].
      destruct (decide (i ∈ ids')) as [Hi'|Hi'].
      * exists algo'. apply index_ids_lookup. by left.
      * exists b. apply index_ids_lookup. by right.
    + apply list_elem_of_singleton in Hin as [= <- <-].
      exists a. apply index_ids_lookup. by left.
  - done.
  - destruct (decide (i ∈ ["2"; "2a"; "2x"; "2y"])) as [Hin|Hnin].
    + apply registered_ids.
      repeat (apply elem_of_cons in Hin as [->|Hin]; [auto 10|]).
      by apply elem_of_nil in Hin.
    + destruct (IDENTS_TO_ALGOS !! i) as [a|] eqn:H; [|done].
      destruct Hnin.
      assert (Hr : registered i).
      { unfold registered. by rewrite H, (IDENTS_TO_ALGOS_only_bcrypt _ _ H). }
      apply registered_ids in Hr. rewrite !elem_of_cons. tauto.
Qed.

(* ================================================================= *)
(** ** The two decoders of the hash string *)

Lemma string_app_assoc (a b c : string) : (a +:+ b) +:+ c = a +:+ (b +:+ c).
Proof.
  induction a as [|x a IH]; [done|].
  change (String x ((a +:+ b) +:+ c) = String x (a +:+ (b +:+ c))).
  by f_equal.
Qed.

Lemma tag_of_extend hash t suffix :
  tag_of hash t → tag_of (hash +:+ suffix) t.
Proof.
  intros (r & -> & Hne & Hd). exists (r +:+ suffix).
  split; [|done].
  change (String "$" ((t +:+ String "$" r) +:+ suffix)
          = String "$" (t +:+ String "$" (r +:+ suffix))).
  by rewrite string_app_assoc.
Qed.

(** X2. [getAlgoId] returns the token [t] exactly when the string is a
    dollar sign, the non-empty dollar-free [t], a dollar sign and any
    rest; on every other string it throws the error whose message is
    the string after "invalid hash: ". The rest is not looked at: a
    string that decodes keeps its token whatever is appended to it. *)
Theorem getAlgoId_characterised (hash : string) :
  (∀ t, getAlgoId hash = Normal t ↔ tag_of hash t)
  ∧ (∀ e, getAlgoId hash = Throw e ↔
          ¬ matches_grammar hash ∧ e = Error ("invalid hash: " +:+ hash))
  ∧ (∀ t suffix, getAlgoId hash = Normal t →
       getAlgoId (hash +:+ suffix) = Normal t).
Proof.
  split; [|split].
  - intros t. apply getAlgoId_tag.
  - intros e. split.
    + intros H. destruct (getAlgoId_cases hash) as [(t & _ & Ht)|[Hn He]].
      * congruence.
      * split; [done|]. rewrite He in H. by injection H as <-.
    + intros [Hn ->]. by apply getAlgoId_invalid.
  - intros t suffix H. apply getAlgoId_tag, tag_of_extend.
    by apply getAlgoId_tag.
Qed.

Lemma digit_value_bounds c :
  is_digit c = true → 0 ≤ digit_value c ≤ 9.
Proof.
  unfold is_digit, digit_value.
  intros [H1 H2]%andb_true_iff.
  apply Nat.leb_le in H1, H2. lia.
Qed.

Lemma decimal_acc_nonneg s acc :
  all_digits s = true → 0 ≤ acc → 0 ≤ decimal_acc acc s.
Proof.
  revert acc. induction s as [|c s IH]; intros acc; simpl; [done|].
  intros [Hc Hs]%andb_true_iff Hacc. apply IH; [done|].
  pose proof (digit_value_bounds c Hc). lia.
Qed.

Lemma cost_field_tag hash d : cost_field_of hash d → matches_grammar hash.
Proof.
  intros (t & r & -> & Hne & Ht & _). exists t. by eexists.
Qed.

(** X3. The fallback [getRounds] returns, rather than throws, exactly
    when, after the token and its dollar sign, the string goes on with
    a non-empty run of decimal digits, of any length, closed by a
    dollar sign; [getAlgoId] accepts every such string. When the number
    the digits spell is at most 2^53, that number, not negative, is
    what is returned. On every other string it throws the invalid-hash
    error. *)
Theorem twin_getRounds_characterised (hash : string) :
  (is_throw (twin_getRounds hash) = false ↔ ∃ d, cost_field_of hash d)
  ∧ (∀ d, cost_field_of hash d → to_number_digits d ≤ 2 ^ 53 →
       twin_getRounds hash = Normal (to_number_digits d)
       ∧ 0 ≤ to_number_digits d)
  ∧ (is_throw (twin_getRounds hash) = false →
       ∃ t, getAlgoId hash = Normal t)
  ∧ (∀ e, twin_getRounds hash = Throw e ↔
          (¬ ∃ d, cost_field_of hash d) ∧ e = invalid_hash hash).
Proof.
  assert (Hret : is_throw (twin_getRounds hash) = false
                 ↔ ∃ d, cost_field_of hash d).
  { unfold twin_getRounds. split.
    - destruct (HASH_RE_rounds hash) as [d|] eqn:H; [|done].
      intros _. exists d. by apply HASH_RE_rounds_spec.
    - intros [d Hd]. apply HASH_RE_rounds_spec in Hd. by rewrite Hd. }
  split; [exact Hret|]. split; [|split].
  - intros d Hd _. split.
    + unfold twin_getRounds. apply HASH_RE_rounds_spec in Hd. by rewrite Hd.
    + destruct Hd as (t & r & _ & _ & _ & _ & Hdig).
      by apply decimal_acc_nonneg.
  - intros H. apply Hret in H as [d Hd].
    destruct (cost_field_tag _ _ Hd) as [t Ht]. exists t.
    by apply getAlgoId_tag.
  - intros e. split.
    + intros H. split; [|by apply twin_getRounds_error].
      apply twin_getRounds_fails. by rewrite H.
    + intros [Hn ->]. apply twin_getRounds_fails in Hn.
      unfold twin_getRounds in *. by destruct (HASH_RE_rounds hash).
Qed.

Lemma twin_getRounds_characterised_witness :
  twin_getRounds "$2y$07$abc" = Normal (to_number_digits "07")
  ∧ 0 ≤ to_number_digits "07".
Proof.
  destruct (twin_getRounds_characterised "$2y$07$abc") as (_ & Hvalue & _).
  apply (Hvalue "07").
  - exists "2y", "abc". by repeat split.
  - by vm_compute.
Defined.

(* ================================================================= *)
(** ** [getInfo] and [verify] *)

Lemma registered_not_unknown t : registered t → t ≠ "unknown".
Proof.
  intros H. apply registered_ids in H.
  by destruct H as [-> | [-> | [-> | ->]]].
Qed.

(** X4. Whatever [getInfo] returns is one of two records: algorithm
    bcrypt, with the token of the string as id, a token registered for
    bcrypt, and the options holding the cost [getRounds] read and
    nothing else; or algorithm unknown with the id unknown and no
    options, the token of the string being unregistered. The id is
    unknown exactly when the algorithm is. *)
Theorem getInfo_result_shape (bcrypt : Bcrypt) (hash : string) (i : info) :
  getInfo bcrypt hash = Normal i →
  ((info_algo i = "bcrypt" ∧ tag_of hash (info_id i)
    ∧ registered (info_id i)
    ∧ ∃ c, getRounds bcrypt hash = Normal c
           ∧ info_options i = {[ "cost" := VNum c ]})
   ∨ (i = Info "unknown" "unknown" ∅
      ∧ ∃ t, tag_of hash t ∧ ¬ registered t))
  ∧ (info_id i = "unknown" ↔ info_algo i = "unknown").
Proof.
  intros H.
  destruct (getInfo_Normal _ _ _ H)
    as [(t & c & Ht & Hr & Hc & ->)|(t & Ht & Hr & ->)]; simpl.
  - split.
    + left. repeat split; try done. by exists c.
    + split; [|done]. intros ->. by apply registered_not_unknown in Hr.
  - split; [|done]. right. split; [done|]. by exists t.
Qed.

Lemma getInfo_result_shape_witness :
  (info_id (Info "bcrypt" "2a" {[ "cost" := VNum 5 ]}) = "unknown"
   ↔ info_algo (Info "bcrypt" "2a" {[ "cost" := VNum 5 ]}) = "unknown").
Proof.
  apply (getInfo_result_shape sample_bcrypt "$2a$5$" ). reflexivity.
Defined.

(** X5. With the fallback [getRounds], [getInfo] decodes every string
    made of a dollar sign, a registered tag, a dollar sign, a non-empty
    run of digits spelling a number of at most 2^53, a dollar sign and
    any rest at all, to bcrypt with that tag and that number: neither
    the number of digits nor the salt and digest that follow are
    checked. *)
Theorem getInfo_twin_decodes
    (cmp : string → string → promise bool)
    (hsh : string → val → promise string)
    (tag d rest : string) :
  registered tag → d ≠ EmptyString → all_digits d = true →
  to_number_digits d ≤ 2 ^ 53 →
  getInfo (twin_bcrypt cmp hsh)
    (String "$" (tag +:+ String "$" (d +:+ String "$" rest)))
  = Normal (Info "bcrypt" tag {[ "cost" := VNum (to_number_digits d) ]}).
Proof.
  intros Hr Hne Hd _.
  destruct (registered_token _ Hr) as [Htne Htd].
  rewrite (getInfo_registered _ _ tag); [|by eexists|done].
  simpl. unfold twin_getRounds.
  assert (H : HASH_RE_rounds
                (String "$" (tag +:+ String "$" (d +:+ String "$" rest)))
              = Some d).
  { apply HASH_RE_rounds_spec. by exists tag, rest. }
  by rewrite H.
Qed.

Lemma getInfo_twin_decodes_witness :
  getInfo sample_bcrypt "$2x$0012$"
  = Normal (Info "bcrypt" "2x" {[ "cost" := VNum 12 ]}).
Proof.
  apply (getInfo_twin_decodes sample_bcryptjs_compare sample_bcryptjs_hash
           "2x" "0012" "").
  - apply registered_ids. auto.
  - discriminate.
  - reflexivity.
  - by vm_compute.
Defined.

(** X6. [verify] returns a promise exactly when the token of the hash
    is registered for bcrypt and [getRounds] succeeds on the hash, and
    the promise is then that of [bcrypt.compare] on the password and
    the hash as given; when the token is registered and [getRounds]
    fails, [verify] throws that error and compares nothing; any error
    it throws is the unsupported-algorithm error or the error of
    [getInfo]. *)
Theorem verify_characterised (bcrypt : Bcrypt) (password hash : string) :
  (∀ q, verify bcrypt password hash = Normal q ↔
        (∃ t c, tag_of hash t ∧ registered t
                ∧ getRounds bcrypt hash = Normal c)
        ∧ q = compare bcrypt password hash)
  ∧ (∀ t e, tag_of hash t → registered t →
       getRounds bcrypt hash = Throw e →
       verify bcrypt password hash = Throw e)
  ∧ (∀ e, verify bcrypt password hash = Throw e →
       e = unsupported_algorithm ∨ getInfo bcrypt hash = Throw e).
Proof.
  split; [|split].
  - intros q. unfold verify. split.
    + destruct (getInfo bcrypt hash) as [i|e] eqn:H; [|done].
      destruct (getInfo_Normal _ _ _ H)
        as [(t & c & Ht & Hr & Hc & ->)|(t & Ht & Hr & ->)]; simpl; [|done].
      intros [= <-]. split; [|done]. by exists t, c.
    + intros [(t & c & Ht & Hr & Hc) ->].
      rewrite (getInfo_registered _ _ _ Ht Hr), Hc. done.
  - intros t e Ht Hr He. unfold verify.
    by rewrite (getInfo_registered _ _ _ Ht Hr), He.
  - intros e. unfold verify.
    destruct (getInfo bcrypt hash) as [i|e'] eqn:H.
    + destruct (String.eqb (info_algo i) "bcrypt"); [done|].
      intros [= <-]. by left.
    + intros [= <-]. by right.
Qed.

(* ================================================================= *)
(** ** The decision of [needsRehash] *)

Lemma getInfo_algo bcrypt hash i :
  getInfo bcrypt hash = Normal i →
  info_algo i = "bcrypt" ∨ info_algo i = "unknown".
Proof.
  intros H.
  destruct (getInfo_Normal _ _ _ H)
    as [(t & c & _ & _ & _ & ->)|(t & _ & _ & ->)]; auto.
Qed.

(** X7. Asked about an algorithm that is neither bcrypt nor the literal
    name unknown, [needsRehash] answers true for every hash that
    decodes, without reading the options or [globalOptions]. *)
Theorem needsRehash_other_algorithm (bcrypt : Bcrypt) (hash : string)
    (algo : option string) (options : option loc) (σ : store) (i : info) :
  getInfo bcrypt hash = Normal i →
  or_default algo ≠ "bcrypt" → or_default algo ≠ "unknown" →
  needsRehash bcrypt hash algo options σ = (Normal true, σ).
Proof.
  intros H Hb Hu. apply (needsRehash_mismatch _ _ _ _ _ i H).
  destruct (getInfo_algo _ _ _ H) as [-> | ->]; congruence.
Qed.

Lemma needsRehash_other_algorithm_witness :
  needsRehash sample_bcrypt
    "$2y$10$abcdefghijklmnopqrstuv0123456789ABCDEFGHIJKLMNOPQRSTU"
    (Some "argon2") None (Store ∅ ∅)
  = (Normal true, Store ∅ ∅).
Proof.
  apply (needsRehash_other_algorithm sample_bcrypt _ (Some "argon2") None
           (Store ∅ ∅) (Info "bcrypt" "2y" {[ "cost" := VNum 10 ]}));
    [reflexivity|discriminate|discriminate].
Defined.

(** X8. A hash that decodes as bcrypt with a tag other than 2y is
    reported stale whatever algorithm is asked about, whatever its
    cost, the options and the store: the costs are not compared, and
    no default needs to exist. *)
Theorem needsRehash_old_tag (bcrypt : Bcrypt) (hash : string)
    (algo : option string) (options : option loc) (σ : store) (i : info) :
  getInfo bcrypt hash = Normal i →
  info_algo i = "bcrypt" → info_id i ≠ "2y" →
  needsRehash bcrypt hash algo options σ = (Normal true, σ).
Proof.
  intros H Ha Hid.
  destruct (decide (or_default algo = "bcrypt")) as [Hb|Hb].
  - destruct (getInfo_Normal _ _ _ H)
      as [(t & c & _ & _ & _ & ->)|(t & _ & _ & ->)]; [|done].
    rewrite (needsRehash_bcrypt _ _ algo _ _ _ _ H Hb).
    simpl in Hid. apply String.eqb_neq in Hid. by rewrite Hid.
  - apply (needsRehash_mismatch _ _ _ _ _ i H). congruence.
Qed.

Lemma needsRehash_old_tag_witness :
  needsRehash sample_bcrypt "$2a$31$" None None (Store ∅ ∅)
  = (Normal true, Store ∅ ∅).
Proof.
  apply (needsRehash_old_tag sample_bcrypt "$2a$31$" None None (Store ∅ ∅)
           (Info "bcrypt" "2a" {[ "cost" := VNum 31 ]}));
    [reflexivity|reflexivity|discriminate].
Defined.

(** X9. When the per-call options carry a non-zero number [n] as cost,
    [needsRehash] about bcrypt, on a 2y hash of cost [c], answers
    whether [c] is below [n], and [globalOptions] plays no part: the
    answer is the same in a store without any default. *)
Theorem needsRehash_per_call_cost (bcrypt : Bcrypt) (hash : string)
    (algo : option string) (options : option loc) (σ : store) (c n : Z) :
  getInfo bcrypt hash = Normal (Info "bcrypt" "2y" {[ "cost" := VNum c ]}) →
  or_default algo = "bcrypt" →
  option_cost σ options = VNum n → n ≠ 0 →
  needsRehash bcrypt hash algo options σ = (Normal (c <? n), σ)
  ∧ needsRehash bcrypt hash algo options (Store ∅ (objects σ))
    = (Normal (c <? n), Store ∅ (objects σ)).
Proof.
  intros H Ha Ho Hn.
  assert (Ht : truthy (VNum n) = true)
    by (simpl; by destruct (Z.eqb_spec n 0)).
  split.
  - rewrite (needsRehash_bcrypt _ _ algo _ _ _ _ H Ha). simpl.
    by rewrite Ho, Ht.
  - rewrite (needsRehash_bcrypt _ _ algo _ _ _ _ H Ha). simpl.
    assert (Ho' : option_cost (Store ∅ (objects σ)) options = VNum n)
      by exact Ho.
    by rewrite Ho', Ht.
Qed.

Lemma needsRehash_per_call_cost_witness :
  needsRehash sample_bcrypt "$2y$10$" None (Some 2%positive)
    (store_with (VNum 4) (VNum 12))
  = (Normal true, store_with (VNum 4) (VNum 12)).
Proof.
  apply (needsRehash_per_call_cost sample_bcrypt "$2y$10$" None
           (Some 2%positive) (store_with (VNum 4) (VNum 12)) 10 12);
    [reflexivity|reflexivity|reflexivity|lia].
Defined.

(** X10. A per-call cost that is falsy, that is [undefined] (also when
    the options have no cost), [null], [false] or 0, counts for
    nothing: [needsRehash] answers as it does with the options
    omitted. *)
Theorem needsRehash_falsy_cost (bcrypt : Bcrypt) (hash : string)
    (algo : option string) (options : option loc) (σ : store) :
  truthy (option_cost σ options) = false →
  needsRehash bcrypt hash algo options σ
  = needsRehash bcrypt hash algo None σ.
Proof.
  intros Hf. unfold needsRehash, bind, lift.
  destruct (getInfo bcrypt hash) as [i|e]; [|done].
  destruct (negb (String.eqb (info_algo i) (or_default algo))); [done|].
  destruct (String.eqb (or_default algo) "bcrypt"); [|done].
  destruct (negb (String.eqb (info_id i) "2y")); [done|].
  destruct options as [lo|]; [|done].
  unfold get_property. simpl in *. by rewrite Hf.
Qed.

Lemma needsRehash_falsy_cost_witness :
  needsRehash sample_bcrypt "$2y$10$" None (Some 2%positive)
    (store_with (VNum 12) VNull)
  = needsRehash sample_bcrypt "$2y$10$" None None
      (store_with (VNum 12) VNull).
Proof.
  apply (needsRehash_falsy_cost sample_bcrypt "$2y$10$" None
           (Some 2%positive) (store_with (VNum 12) VNull)).
  reflexivity.
Defined.

(** X11. On a 2y bcrypt hash, asked about bcrypt with no truthy per-call
    cost: when [globalOptions.bcrypt] is missing, [needsRehash] throws
    the TypeError of reading [cost] of [undefined]; when it is there
    but holds no cost, the hash is reported fresh whatever its cost. *)
Theorem needsRehash_without_default_cost (bcrypt : Bcrypt) (hash : string)
    (algo : option string) (options : option loc) (σ : store) (c : Z) :
  getInfo bcrypt hash = Normal (Info "bcrypt" "2y" {[ "cost" := VNum c ]}) →
  or_default algo = "bcrypt" →
  truthy (option_cost σ options) = false →
  (globalOptions σ !! "bcrypt" = None →
     needsRehash bcrypt hash algo options σ
     = (Throw (undefined_read "cost"), σ))
  ∧ (∀ lg, globalOptions σ !! "bcrypt" = Some lg →
       object_at σ lg !! "cost" = None →
       needsRehash bcrypt hash algo options σ = (Normal false, σ)).
Proof.
  intros H Ha Hf.
  rewrite (needsRehash_bcrypt _ _ algo _ _ _ _ H Ha). simpl. rewrite Hf.
  split.
  - by intros ->.
  - intros lg -> Hc. by rewrite Hc.
Qed.

Lemma needsRehash_without_default_cost_witness :
  needsRehash sample_bcrypt "$2y$04$" None None (Store ∅ ∅)
  = (Throw (undefined_read "cost"), Store ∅ ∅)
  ∧ needsRehash sample_bcrypt "$2y$04$" None None
      (Store {[ "bcrypt" := 1%positive ]} {[ 1%positive := ∅ ]})
    = (Normal false,
       Store {[ "bcrypt" := 1%positive ]} {[ 1%positive := ∅ ]}).
Proof.
  split.
  - by apply (needsRehash_without_default_cost sample_bcrypt "$2y$04$"
                None None (Store ∅ ∅) 4 eq_refl eq_refl eq_refl).
  - by apply (needsRehash_without_default_cost sample_bcrypt "$2y$04$"
                None None
                (Store {[ "bcrypt" := 1%positive ]} {[ 1%positive := ∅ ]})
                4 eq_refl eq_refl eq_refl) with 1%positive.
Defined.

Lemma js_lt_antitone c1 c2 v :
  c1 ≤ c2 → js_lt (VNum c2) v = true → js_lt (VNum c1) v = true.
Proof.
  unfold js_lt. simpl. destruct (ToNumber v) as [y|]; [|done].
  rewrite !Z.ltb_lt. lia.
Qed.

(** X12. Between two hashes that decode as bcrypt with the same tag, the
    one of lower cost is stale whenever the other is, for the same
    algorithm, options and store. *)
Theorem needsRehash_cost_antitone (bcrypt : Bcrypt) (hash1 hash2 : string)
    (algo : option string) (options : option loc) (σ : store)
    (t : string) (c1 c2 : Z) :
  getInfo bcrypt hash1 = Normal (Info "bcrypt" t {[ "cost" := VNum c1 ]}) →
  getInfo bcrypt hash2 = Normal (Info "bcrypt" t {[ "cost" := VNum c2 ]}) →
  c1 ≤ c2 →
  (needsRehash bcrypt hash2 algo options σ).1 = Normal true →
  (needsRehash bcrypt hash1 algo options σ).1 = Normal true.
Proof.
  intros H1 H2 Hle.
  destruct (decide (or_default algo = "bcrypt")) as [Hb|Hb].
  - rewrite (needsRehash_bcrypt _ _ algo _ _ _ _ H1 Hb).
    rewrite (needsRehash_bcrypt _ _ algo _ _ _ _ H2 Hb).
    destruct (negb (String.eqb t "2y")); [done|].
    destruct (truthy (option_cost σ options)); simpl.
    + intros [= Hlt]. by rewrite (js_lt_antitone _ _ _ Hle Hlt).
    + destruct (globalOptions σ !! "bcrypt"); simpl; [|done].
      intros [= Hlt]. by rewrite (js_lt_antitone _ _ _ Hle Hlt).
  - intros _.
    rewrite (needsRehash_mismatch _ _ _ _ _ _ H1); [done|]. simpl. congruence.
Qed.

Lemma needsRehash_cost_antitone_witness :
  (needsRehash sample_bcrypt "$2y$08$" None None initial_store).1
  = Normal true.
Proof.
  apply (needsRehash_cost_antitone sample_bcrypt "$2y$08$" "$2y$09$"
           None None initial_store "2y" 8 9);
    [reflexivity|reflexivity|lia|reflexivity].
Defined.

(* ================================================================= *)
(** ** [assign] on any number of sources *)

Lemma assign_loop_spec target σ sources : ∀ σ0,
  (∀ l, l ≠ target → objects σ0 !! l = objects σ !! l) →
  ∃ σ',
    for_each sources (fun source =>
      do keys <- own_keys source;
      for_each keys (copy_property target source)) σ0 = (Normal (), σ')
    ∧ globalOptions σ' = globalOptions σ0
    ∧ (∀ l, l ≠ target → objects σ' !! l = objects σ !! l)
    ∧ object_at σ' target = assigned σ target sources (object_at σ0 target).
Proof.
  induction sources as [|s sources IH]; intros σ0 Hf0.
  - by exists σ0.
  - destruct (assign_source_spec target s σ0) as (σ1 & Hrun & Hg & Hf & Ht).
    destruct (IH σ1) as (σ' & Hrun' & Hg' & Hf' & Ht').
    { intros l Hl. by rewrite Hf, Hf0. }
    exists σ'. split; [|split; [|split]].
    + simpl. by rewrite (bind_Normal _ _ σ0 () σ1 Hrun).
    + by rewrite Hg'.
    + done.
    + rewrite Ht', Ht. unfold assigned. simpl. f_equal.
      destruct (decide (s = Some target)) as [->|Hne].
      * simpl. by rewrite (idemp_L (∪)).
      * f_equal. destruct s as [l|]; [|done]. simpl.
        apply object_at_frame, Hf0. congruence.
Qed.

Lemma assigned_missing_key σ target sources k : ∀ init,
  (∀ s, s ∈ sources → source_object σ s !! k = None) →
  assigned σ target sources init !! k = init !! k.
Proof.
  unfold assigned.
  induction sources as [|s sources IH]; intros init Hk; simpl; [done|].
  rewrite IH by (intros s' Hs'; apply Hk; by right).
  destruct (decide (s = Some target)); [done|].
  apply lookup_union_r, Hk. by left.
Qed.

(** X13. [assign(target, s1, ..., sn)] never throws and returns its
    target. It changes no object but the target and leaves
    [globalOptions] alone. The target ends up with each source laid
    over it in turn ([undefined] sources adding nothing): a key held
    by the last source has that source's value, and a key held by no
    source keeps the target's own value. *)
Theorem assign_spec (target : loc) (sources : list (option loc))
    (σ : store) :
  ∃ σ',
    assign target sources σ = (Normal target, σ')
    ∧ globalOptions σ' = globalOptions σ
    ∧ (∀ l, l ≠ target → objects σ' !! l = objects σ !! l)
    ∧ object_at σ' target = assigned σ target sources (object_at σ target)
    ∧ (∀ (before : list (option loc)) s k v,
         sources = (before ++ [s])%list → s ≠ Some target →
         source_object σ s !! k = Some v →
         object_at σ' target !! k = Some v)
    ∧ (∀ k, (∀ s, s ∈ sources → source_object σ s !! k = None) →
         object_at σ' target !! k = object_at σ target !! k).
Proof.
  destruct (assign_loop_spec target σ sources σ) as (σ' & Hrun & Hg & Hf & Ht);
    [done|].
  exists σ'. split; [|split; [|split; [|split; [|split]]]]; try done.
  - unfold assign. by rewrite (bind_Normal _ _ σ () σ' Hrun).
  - intros before s k v -> Hne Hv. rewrite Ht. unfold assigned.
    rewrite foldl_app. simpl. rewrite decide_False by done.
    by apply lookup_union_Some_l.
  - intros k Hk. rewrite Ht. by apply assigned_missing_key.
Qed.

(* ================================================================= *)
(** ** The cost [hash] uses, and what [needsRehash] says of its result *)

(** X14. When [globalOptions.bcrypt] is missing, or holds no cost,
    [hash] about bcrypt hands the primitive the cost of the caller's
    options, and [undefined] when there is none either. *)
Theorem hash_cost_fallback (bcrypt : Bcrypt) (password : string)
    (algo : option string) (options : option loc) (σ : store) :
  or_default algo = "bcrypt" →
  source_object σ (globalOptions σ !! "bcrypt") !! "cost" = None →
  ∃ σ', hash bcrypt password algo options σ
        = (Normal (hash_password bcrypt password (option_cost σ options)),
           σ').
Proof.
  intros Ha Hnone.
  destruct (hash_spec bcrypt password algo options σ Ha) as (σ' & Hrun & _).
  exists σ'. rewrite Hrun. do 3 f_equal.
  rewrite (lookup_union_r _ _ _ Hnone).
  destruct options as [lo|]; simpl; [done|]. by rewrite lookup_empty.
Qed.

Lemma hash_cost_fallback_witness :
  ∃ σ', hash sample_bcrypt "secret" None (Some 2%positive)
          (Store ∅ {[ 2%positive := {[ "cost" := VNum 12 ]} ]})
        = (Normal (Fulfilled (bcrypt_hash_string "2y" 12 sample_payload)),
           σ').
Proof.
  destruct (hash_cost_fallback sample_bcrypt "secret" None (Some 2%positive)
              (Store ∅ {[ 2%positive := {[ "cost" := VNum 12 ]} ]}))
    as [σ' H]; [reflexivity|reflexivity|].
  exists σ'. etrans; [exact H|reflexivity].
Defined.

(** X15. With the fallback binding and a numeric default cost [g] below
    100, if the primitive answers the cost [g] with a string of the
    bcrypt format carrying the tag [tag], then the hash [hash] produces
    is, in the store [hash] leaves, reported stale by [needsRehash]
    exactly when [tag] is not 2y. *)
Theorem hash_then_needsRehash_tag
    (cmp : string → string → promise bool)
    (hsh : string → val → promise string)
    (password : string) (options : option loc) (σ : store) (lg : loc)
    (g : Z) (tag payload : string) :
  globalOptions σ !! "bcrypt" = Some lg →
  object_at σ lg !! "cost" = Some (VNum g) →
  0 ≤ g < 100 →
  registered tag →
  hsh password (VNum g) = Fulfilled (bcrypt_hash_string tag g payload) →
  ∃ σ',
    hash (twin_bcrypt cmp hsh) password None options σ
    = (Normal (Fulfilled (bcrypt_hash_string tag g payload)), σ')
    ∧ needsRehash (twin_bcrypt cmp hsh) (bcrypt_hash_string tag g payload)
        None None σ'
      = (Normal (negb (String.eqb tag "2y")), σ').
Proof.
  intros Hlg Hg Hrange Hreg Hh.
  destruct (hash_spec (twin_bcrypt cmp hsh) password None options σ eq_refl)
    as (σ' & Hrun & Hglob & Hframe & Hfresh & _).
  exists σ'. split.
  - rewrite Hrun, Hlg. simpl.
    rewrite (lookup_union_Some_l _ _ _ _ Hg). simpl. by rewrite Hh.
  - assert (Hne : lg ≠ fresh (dom (objects σ))).
    { intros ->. apply not_elem_of_dom in Hfresh.
      unfold object_at in Hg. by rewrite Hfresh in Hg. }
    rewrite (needsRehash_bcrypt _ _ None None σ' tag g
               (getInfo_twin_format cmp hsh tag g payload Hreg Hrange)
               eq_refl).
    destruct (negb (String.eqb tag "2y")); [done|]. simpl.
    rewrite Hglob, Hlg.
    rewrite (object_at_frame σ σ' lg (Hframe lg Hne)), Hg. simpl.
    unfold js_lt. simpl. by rewrite Z.ltb_irrefl.
Qed.

Lemma hash_then_needsRehash_tag_witness :
  ∃ σ',
    hash (twin_bcrypt sample_bcryptjs_compare sample_bcryptjs_hash)
      "secret" None None initial_store
    = (Normal (Fulfilled (bcrypt_hash_string "2y" 10 sample_payload)), σ')
    ∧ needsRehash (twin_bcrypt sample_bcryptjs_compare sample_bcryptjs_hash)
        (bcrypt_hash_string "2y" 10 sample_payload) None None σ'
      = (Normal (negb (String.eqb "2y" "2y")), σ').
Proof.
  apply (hash_then_needsRehash_tag sample_bcryptjs_compare
           sample_bcryptjs_hash "secret" None initial_store 1%positive 10
           "2y" sample_payload);
    [reflexivity|reflexivity|lia| |reflexivity].
  apply registered_ids. auto.
Defined.

(* ================================================================= *)
(** ** The arguments and the promise of the async wrapper *)

(** X16. The wrapper takes as callback the last argument when that is
    a function, and only that one; the wrapped function is applied to
    the arguments before it, or to all of them when there is no
    callback. What the function returns is what settles the promise
    handed to [asCallback]: its promise as it is, a plain value as a
    fulfilled promise; the state is the one the function leaves. *)
Theorem makeAsyncWrapper_call {Arg A R St : Type}
    (is_function : Arg → bool) (asCallback : promise A → option Arg → R)
    (fn : list Arg → St → completion (resolution A) * St)
    (arguments : list Arg) (s : St) :
  ∃ args callback,
    ((callback = None ∧ args = arguments
      ∧ ∀ a, last arguments = Some a → is_function a = false)
     ∨ (∃ f, callback = Some f ∧ is_function f = true
             ∧ arguments = (args ++ [f])%list))
    ∧ (∀ p s', fn args s = (Normal (Thenable p), s') →
         makeAsyncWrapper is_function asCallback fn arguments s
         = (Normal (asCallback p callback), s'))
    ∧ (∀ v s', fn args s = (Normal (Plain v), s') →
         makeAsyncWrapper is_function asCallback fn arguments s
         = (Normal (asCallback (Fulfilled v) callback), s')).
Proof.
  destruct (pop_callback is_function arguments) as [args callback] eqn:Hp.
  exists args, callback. split; [|split].
  - unfold pop_callback in Hp.
    destruct (last arguments) as [f|] eqn:Hl.
    + destruct (is_function f) eqn:Hf.
      * injection Hp as <- <-. right. exists f.
        apply last_Some in Hl as [l' ->].
        by rewrite removelast_last.
      * injection Hp as <- <-. left. repeat split; try done.
        intros a [= <-]. done.
    + injection Hp as <- <-. left. by repeat split.
  - intros p s' Hfn.
    by rewrite (makeAsyncWrapper_run _ _ _ _ _ _ _ _ _ Hp Hfn).
  - intros v s' Hfn.
    by rewrite (makeAsyncWrapper_run _ _ _ _ _ _ _ _ _ Hp Hfn).
Qed.
